(** * KNN decision-boundary visualisation (src/App.tsx)

    A shallow embedding of [drawVisualization] and of its inner closure
    [classifyPoint].  JavaScript numbers are IEEE-754 binary64 values, so
    coordinates and distances are Rocq's primitive floats: [NaN] is a value
    of the model, and [Math.sqrt], [-], [*], [/] are the hardware operations.
    The slider value [k] is an integer and is modelled in [Z].

    The d3 functions the component calls (d3-array's [min], [max] and
    [rollup], d3-scale's [scaleLinear] and [scaleOrdinal], d3-hexbin) are
    library code; they are transcribed from the published sources of those
    packages (d3 v7, d3-hexbin 0.2), next to the JavaScript built-ins
    ([slice], [sort], [reduce]). *)

From Stdlib Require Import PrimFloat ZArith String List Bool Arith Lia Permutation Sorting.Sorted.
Import ListNotations.

Set Implicit Arguments.

(** ** JavaScript built-ins *)

Module JS.

(** A thrown value.  The code under study only ever meets the [TypeError]
    of the built-ins; [UserError name] stands for a
    [throw new Error(name)] of the program's own. *)
Inductive exn : Type :=
| TypeError (message : string)
| UserError (name : string).

(** Completion of a call: a value, or an exception in flight. *)
Inductive completion (A : Type) : Type :=
| Normal (a : A)
| Throw (e : exn).
Arguments Normal {A} a.
Arguments Throw {A} e.

Definition bind {A B} (c : completion A) (f : A -> completion B) : completion B :=
  match c with
  | Normal a => f a
  | Throw e => Throw e
  end.

Definition fmap {A B} (f : A -> B) (c : completion A) : completion B :=
  bind c (fun a => Normal (f a)).

(** The values that occur as keys of a tally: a string, or [undefined]
    (the result of reading a property the object does not have). *)
Inductive value : Type :=
| undefined
| str (s : string).

Definition value_eqb (a b : value) : bool :=
  match a, b with
  | undefined, undefined => true
  | str s, str t => String.eqb s t
  | _, _ => false
  end.

Definition isNaN (x : float) : bool := negb (PrimFloat.eqb x x).

(** [Math.pow(x, 2)], taken to be the correctly rounded square. *)
Definition pow2 (x : float) : float := (x * x)%float.

(** [arr.slice(0, end)] for an integer [end]: a negative [end] counts from
    the end of the array, and the bounds are clamped to [0 .. length]. *)
Definition slice0 {A} (arr : list A) (end_ : Z) : list A :=
  let len := Z.of_nat (length arr) in
  let final := if (end_ <? 0)%Z then Z.max (len + end_) 0 else Z.min end_ len in
  firstn (Z.to_nat final) arr.

(** [arr.sort(comparefn)].  ECMAScript requires a stable sort; a [NaN]
    returned by [comparefn] counts as [+0].  For a consistent comparator
    every stable sort gives the same array; the model is the stable
    insertion sort (engines use it for short arrays), which fixes the
    outcome for inconsistent comparators too. *)
Fixpoint insert {A} (comparefn : A -> A -> float) (x : A) (sorted : list A) : list A :=
  match sorted with
  | [] => [x]
  | y :: ys =>
      if (0 <? comparefn x y)%float
      then y :: insert comparefn x ys
      else x :: y :: ys
  end.

Definition sort {A} (comparefn : A -> A -> float) (arr : list A) : list A :=
  fold_right (insert comparefn) [] arr.

(** [arr.reduce(callback)] without an initial value. *)
Definition reduce {A} (callback : A -> A -> A) (arr : list A) : completion A :=
  match arr with
  | [] => Throw (TypeError "Reduce of empty array with no initial value")
  | a :: rest => Normal (fold_left callback rest a)
  end.

(** [map.get(key)] on the entries of a [Map], in insertion order. *)
Fixpoint Map_get {K V} (eqb : K -> K -> bool) (entries : list (K * V)) (key : K) : option V :=
  match entries with
  | [] => None
  | (k, v) :: rest => if eqb k key then Some v else Map_get eqb rest key
  end.

End JS.
Import JS.

(** ** d3-array: [rollup] *)

Module D3.

Section Rollup.
Variables V K R : Type.
Variable key_eqb : K -> K -> bool.

(** One turn of the grouping loop:
    [group = groups.get(key); if (group) group.push(value);
     else groups.set(key, [value])].  A [Map] keeps its entries in
    insertion order, so a new key goes last. *)
Fixpoint group_push (groups : list (K * list V)) (key : K) (v : V) : list (K * list V) :=
  match groups with
  | [] => [(key, [v])]
  | (k, vs) :: rest =>
      if key_eqb k key
      then (k, vs ++ [v]) :: rest
      else (k, vs) :: group_push rest key v
  end.

Definition group (values : list V) (keyof : V -> K) : list (K * list V) :=
  fold_left (fun groups v => group_push groups (keyof v) v) values [].

(** [Array.from(d3.rollup(values, reduce, keyof))]: the entries
    [[key, reduce(group)]] in insertion order of the keys. *)
Definition rollup (values : list V) (reduce : list V -> R) (keyof : V -> K) : list (K * R) :=
  map (fun entry => (fst entry, reduce (snd entry))) (group values keyof).
End Rollup.

End D3.

(** ** The data model *)

Module Penguin.
Record t : Type := mk {
  species : string;
  bill_length_mm : float;
  bill_depth_mm : float
}.
End Penguin.

(** The objects [{species, distance}] built by [classifyPoint]. *)
Module Neighbor.
Record t : Type := mk {
  species : string;
  distance : float
}.
End Neighbor.

(** A coordinate pair [[a, b]].  It is a plain array: reading [.species]
    from it yields [undefined]. *)
Module Point.
Definition t : Type := (float * float)%type.
Definition species (d : t) : JS.value := undefined.
End Point.

(** ** [classifyPoint] (App.tsx, lines 73-82)

    The closure captures [limitedData] and [currentK]; they are explicit
    arguments here. *)

Section ClassifyPoint.
Variable limitedData : list Penguin.t.
Variable currentK : Z.

Definition distances (point : Point.t) : list Neighbor.t :=
  map (fun d =>
         Neighbor.mk
           (Penguin.species d)
           (sqrt (pow2 (Penguin.bill_length_mm d - fst point)
                  + pow2 (Penguin.bill_depth_mm d - snd point)))%float)
      limitedData.

Definition byDistance (a b : Neighbor.t) : float :=
  (Neighbor.distance a - Neighbor.distance b)%float.

Definition sortedDistances (point : Point.t) : list Neighbor.t :=
  JS.sort byDistance (distances point).

Definition nearestNeighbors (point : Point.t) : list Neighbor.t :=
  slice0 (sortedDistances point) currentK.

End ClassifyPoint.

(** Lines 80-81: the tally of the neighbours' species and the pick. *)
Definition tally (nearestNeighbors : list Neighbor.t) : list (string * nat) :=
  D3.rollup String.eqb nearestNeighbors (@length Neighbor.t) Neighbor.species.

Definition pick {K} (a b : K * nat) : K * nat :=
  if (snd b <? snd a)%nat then a else b.

Definition vote (nearestNeighbors : list Neighbor.t) : completion string :=
  fmap fst (reduce pick (tally nearestNeighbors)).

Definition speciesCount (limitedData : list Penguin.t) (currentK : Z) (point : Point.t)
  : list (string * nat) :=
  tally (nearestNeighbors limitedData currentK point).

Definition classifyPoint (limitedData : list Penguin.t) (currentK : Z) (point : Point.t)
  : completion string :=
  vote (nearestNeighbors limitedData currentK point).

(** Lines 101-102: the same two statements, run on the elements of a bin,
    whatever they are; [speciesOf] is the property read [d.species]. *)
Definition maxSpecies {A} (speciesOf : A -> JS.value) (d : list A) : completion JS.value :=
  fmap fst (reduce pick (D3.rollup value_eqb d (@length A) speciesOf)).

(** ** d3-array [min]/[max], d3-scale [scaleLinear] and [scaleOrdinal] *)

Module Scale.
Local Open Scope float_scope.

(** [d3.min(values, valueof)]: [NaN] entries are skipped ([value >= value]
    fails for them); [None] is the [undefined] of an all-[NaN] or empty
    input. *)
Definition min {A} (values : list A) (valueof : A -> float) : option float :=
  fold_left
    (fun min v =>
       let value := valueof v in
       match min with
       | None => if value <=? value then Some value else None
       | Some m => if value <? m then Some value else Some m
       end)
    values None.

Definition max {A} (values : list A) (valueof : A -> float) : option float :=
  fold_left
    (fun max v =>
       let value := valueof v in
       match max with
       | None => if value <=? value then Some value else None
       | Some m => if m <? value then Some value else Some m
       end)
    values None.

(** [+v] for a number-or-undefined [v]. *)
Definition toNumber (v : option float) : float :=
  match v with
  | Some x => x
  | None => nan
  end.

Definition truthy (x : float) : bool := negb (x =? 0) && negb (isNaN x).

(** d3-scale [normalize(a, b)] and d3-interpolate [interpolateNumber]. *)
Definition normalize (a b x : float) : float :=
  let b' := b - a in
  if truthy b' then (x - a) / b' else if isNaN b' then nan else 0.5.

Definition interpolateNumber (a b t : float) : float := a * (1 - t) + b * t.

Definition bimap (domain range : float * float) (x : float) : float :=
  let (d0, d1) := domain in
  let (r0, r1) := range in
  if d1 <? d0
  then interpolateNumber r1 r0 (normalize d1 d0 x)
  else interpolateNumber r0 r1 (normalize d0 d1 x).

(** A linear scale applied to [x]; [None] is the scale's [unknown]
    ([undefined]), returned for a [NaN] input. *)
Definition scaleLinear (domain range : float * float) (x : float) : option float :=
  if isNaN x then None else Some (bimap domain range x).

Definition schemeCategory10 : list string :=
  ["#1f77b4"; "#ff7f0e"; "#2ca02c"; "#d62728"; "#9467bd";
   "#8c564b"; "#e377c2"; "#7f7f7f"; "#bcbd22"; "#17becf"]%string.

Fixpoint indexOf (domain : list JS.value) (d : JS.value) : option nat :=
  match domain with
  | [] => None
  | k :: rest =>
      if value_eqb k d then Some O else option_map S (indexOf rest d)
  end.

(** An ordinal scale with the implicit domain: an unseen key is pushed
    onto the domain.  The domain is the state of the scale. *)
Definition scaleOrdinal (range : list string) (domain : list JS.value) (d : JS.value)
  : list JS.value * string :=
  match indexOf domain d with
  | Some i => (domain, nth (i mod List.length range) range ""%string)
  | None =>
      (domain ++ [d],
       nth (List.length domain mod List.length range) range ""%string)
  end.

End Scale.

(** ** d3-hexbin *)

Module Hexbin.
Local Open Scope float_scope.

Definition two52 : float := 4503599627370496.
Definition two53 : float := 9007199254740992.

(** [Math.floor], up to the sign of a zero result. *)
Definition floor (x : float) : float :=
  if two52 <=? abs x then x
  else if 0 <=? x
       then let t := (x + two52) - two52 in if x <? t then t - 1 else t
       else let t := (x - two52) + two52 in if x <? t then t - 1 else t.

(** [Math.round]: the nearest integer, a tie going towards +infinity. *)
Definition round (x : float) : float :=
  let r := floor x in
  if 0.5 <=? x - r then r + 1 else r.

(** [n & 1]: the lowest bit of [ToInt32(n)]. *)
Definition and1 (n : float) : float :=
  let t := if n <? 0 then - floor (- n) else floor n in
  if abs t <? two53
  then (let h := t / 2 in if floor h =? h then 0 else 1)
  else 0.

Record Bin : Type := mkBin {
  points : list Point.t;
  pi : float;
  pj : float;
  x : float;
  y : float
}.

Section Generator.
(** The generator's configuration: accessors, radius and extent. *)
Variable xOf yOf : Point.t -> option float.
Variable r : float.
Variable x0 y0 x1 y1 : float.

(** [Math.sin(Math.PI / 3)]. *)
Definition sinThirdPi : float := 0x1.bb67ae8584caap-1.

Definition dx : float := r * 2 * sinThirdPi.
Definition dy : float := r * 1.5.

(** The cell [(pi, pj)] of the pixel [(px, py)]. *)
Definition cell (px py : float) : float * float :=
  let py := py / dy in
  let pj := round py in
  let px := px / dx - and1 pj / 2 in
  let pi := round px in
  let py1 := py - pj in
  if 1 <? abs py1 * 3
  then
    let px1 := px - pi in
    let pi2 := pi + (if px <? pi then -1 else 1) / 2 in
    let pj2 := pj + (if py <? pj then -1 else 1) in
    let px2 := px - pi2 in
    let py2 := py - pj2 in
    if px2 * px2 + py2 * py2 <? px1 * px1 + py1 * py1
    then (pi2 + (if and1 pj =? 0 then -1 else 1) / 2, pj2)
    else (pi, pj)
  else (pi, pj).

(** [binsById[id]] with [id = pi + "-" + pj]: two ids are the same
    string exactly when their numbers are equal ([-0] prints as [0]).
    [bins] is in order of creation. *)
Fixpoint push (bins : list Bin) (i j : float) (point : Point.t) : list Bin :=
  match bins with
  | [] => [mkBin [point] i j ((i + and1 j / 2) * dx) (j * dy)]
  | b :: rest =>
      if (pi b =? i) && (pj b =? j)
      then mkBin (points b ++ [point]) (pi b) (pj b) (x b) (y b) :: rest
      else b :: push rest i j point
  end.

(** One turn of the loop of [hexbin(points)]. *)
Definition step (bins : list Bin) (point : Point.t) : list Bin :=
  let px := Scale.toNumber (xOf point) in
  let py := Scale.toNumber (yOf point) in
  if isNaN px || isNaN py then bins
  else let (i, j) := cell px py in push bins i j point.

Definition hexbin (points : list Point.t) : list Bin :=
  fold_left step points [].

(** [hexbin.centers()]: two nested [for] loops over floats, run with
    fuel; [None] means the fuel ran out. *)
Fixpoint centersRow (fuel : nat) (cx cy : float) : option (list Point.t) :=
  match fuel with
  | O => None
  | S fuel' =>
      if cx <? x1 + dx / 2
      then option_map (cons (cx, cy)) (centersRow fuel' (cx + dx) cy)
      else Some []
  end.

Fixpoint centersRows (fuel : nat) (i cy j : float) : option (list Point.t) :=
  match fuel with
  | O => None
  | S fuel' =>
      if cy <? y1 + r
      then
        match centersRow fuel (i * dx + and1 j * dx / 2) cy,
              centersRows fuel' i (cy + dy) (j + 1) with
        | Some row, Some rows => Some (row ++ rows)
        | _, _ => None
        end
      else Some []
  end.

Definition centers (fuel : nat) : option (list Point.t) :=
  let j := round (y0 / dy) in
  let i := round (x0 / dx) in
  centersRows fuel i (j * dy) j.
End Generator.

End Hexbin.
(** ** [drawVisualization] (App.tsx, lines 35-134)

    The drawing is kept as far as the two hexagon layers and the caption
    go: a [path] carries its [transform] and its [fill].  The axes and the
    axis labels are constant decorations and are left out. *)

Record Path : Type := mkPath {
  transform : option float * option float;
  fill : option string
}.

Record Svg : Type := mkSvg {
  decisionLayer : list Path;
  densityLayer : list Path;
  caption : option Z
}.

(** What the component holds: the [data] state and [svgRef.current]
    ([None] while the element is not mounted). *)
Record App : Type := mkApp {
  data : list Penguin.t;
  svgRef : option Svg
}.

Section DrawVisualization.
Local Open Scope float_scope.

Definition width : float := 800.
Definition height : float := 600.
Definition margin_top : float := 20.
Definition margin_right : float := 20.
Definition margin_bottom : float := 30.
Definition margin_left : float := 40.

Definition xScale (data : list Penguin.t) : float -> option float :=
  Scale.scaleLinear
    (Scale.toNumber (Scale.min data Penguin.bill_length_mm) - 5,
     Scale.toNumber (Scale.max data Penguin.bill_length_mm) + 5)
    (margin_left, width - margin_right).

Definition yScale (data : list Penguin.t) : float -> option float :=
  Scale.scaleLinear
    (Scale.toNumber (Scale.min data Penguin.bill_depth_mm) - 5,
     Scale.toNumber (Scale.max data Penguin.bill_depth_mm) + 5)
    (height - margin_bottom, margin_top).

Definition color : list JS.value -> JS.value -> list JS.value * string :=
  Scale.scaleOrdinal Scale.schemeCategory10.

(** [hexbinGenerator(points)] with the accessors, radius and extent of
    lines 57-61. *)
Definition hexbinGenerator (data : list Penguin.t) (points : list Point.t) : list Hexbin.Bin :=
  Hexbin.hexbin (fun d => xScale data (fst d)) (fun d => yScale data (snd d)) 10 points.

(** [hexbinGenerator.centers()] depends on the radius and the extent
    alone; 100 turns of either loop are more than it needs. *)
Definition hexPoints : list Point.t :=
  match Hexbin.centers 10 margin_left margin_top (width - margin_right) (height - margin_bottom) 100 with
  | Some centers => centers
  | None => []
  end.

Definition limitedData (data : list Penguin.t) (currentK : Z) : list Penguin.t :=
  slice0 data currentK.

Definition points (data : list Penguin.t) (currentK : Z) : list Point.t :=
  map (fun d => (Penguin.bill_length_mm d, Penguin.bill_depth_mm d)) (limitedData data currentK).

Definition bins (data : list Penguin.t) (currentK : Z) : list Hexbin.Bin :=
  hexbinGenerator data (points data currentK).

(** [selection.attr("fill", d => color(value(d)))] over the joined nodes,
    which already carry their [transform]: the nodes are visited in
    order, the ordinal scale remembers the keys it has seen, and an
    exception leaves the remaining nodes without a fill. *)
Fixpoint attrFill {A} (transformOf : A -> option float * option float)
         (value : A -> completion JS.value)
         (domain : list JS.value) (nodes : list A)
  : list Path * list JS.value * completion unit :=
  match nodes with
  | [] => ([], domain, Normal tt)
  | d :: rest =>
      match value d with
      | Throw e =>
          (map (fun n => mkPath (transformOf n) None) nodes, domain, Throw e)
      | Normal v =>
          let (domain', c) := color domain v in
          let '(paths, domain'', r) := attrFill transformOf value domain' rest in
          (mkPath (transformOf d) (Some c) :: paths, domain'', r)
      end
  end.

(** The body of [drawVisualization] past its guard: the element has been
    emptied, and every layer is drawn anew from [data] and [currentK]. *)
Definition render (data : list Penguin.t) (currentK : Z) : Svg * completion unit :=
  let x := xScale data in
  let y := yScale data in
  let limitedData := limitedData data currentK in
  let bins := bins data currentK in
  let '(decision, domain, r) :=
    attrFill (fun d => (x (fst d), y (snd d)))
             (fun d => fmap str (classifyPoint limitedData currentK d))
             [] hexPoints in
  match r with
  | Throw e => (mkSvg decision [] None, Throw e)
  | Normal _ =>
      let '(density, _, r) :=
        attrFill (fun d => (Some (Hexbin.x d), Some (Hexbin.y d)))
                 (fun d => maxSpecies Point.species (Hexbin.points d))
                 domain bins in
      match r with
      | Throw e => (mkSvg decision density None, Throw e)
      | Normal _ => (mkSvg decision density (Some currentK), Normal tt)
      end
  end.

(** Line 36: [if (!data.length || !svgRef.current) return;] *)
Definition drawVisualization (app : App) (currentK : Z) : App * completion unit :=
  match data app, svgRef app with
  | [], _ | _, None => (app, Normal tt)
  | _ :: _, Some _ =>
      let (svg, r) := render (data app) currentK in
      (mkApp (data app) (Some svg), r)
  end.

End DrawVisualization.

(** ** Vocabulary of the statements *)

Section Counting.
Variable K : Type.
Variable eqb : K -> K -> bool.

(** How many times [k] occurs in [l]. *)
Fixpoint occurrences (k : K) (l : list K) : nat :=
  match l with
  | [] => 0
  | x :: l' => (if eqb x k then 1 else 0) + occurrences k l'
  end.

(** Position of the first occurrence of [k] in [l] ([length l] when there
    is none). *)
Fixpoint firstIndex (k : K) (l : list K) : nat :=
  match l with
  | [] => 0
  | x :: l' => if eqb x k then 0 else S (firstIndex k l')
  end.

(** The distinct elements of [l], in order of first occurrence. *)
Definition pushNew (acc : list K) (k : K) : list K :=
  if existsb (fun k' => eqb k' k) acc then acc else acc ++ [k].

Definition firsts (l : list K) : list K := fold_left pushNew l [].

(** What one more value of key [k] does to the entries of a count. *)
Fixpoint countPush (entries : list (K * nat)) (k : K) : list (K * nat) :=
  match entries with
  | [] => [(k, 1)]
  | (k', n) :: rest =>
      if eqb k' k then (k', S n) :: rest else (k', n) :: countPush rest k
  end.
End Counting.

(** The species of a list of neighbours, nearest first. *)
Definition labels (nearestNeighbors : list Neighbor.t) : list string :=
  map Neighbor.species nearestNeighbors.

(** [M] is another label with as many votes as [L]. *)
Definition tied (votes : list string) (L M : string) : Prop :=
  M <> L /\ occurrences String.eqb M votes = occurrences String.eqb L votes.

(** The tie-break "first-encountered label wins": whenever a label is
    returned, every label tied with it is first met later in the
    neighbour list. *)
Definition firstTiedWins (limitedData : list Penguin.t) (currentK : Z) (point : Point.t) : Prop :=
  forall L,
    classifyPoint limitedData currentK point = Normal L ->
    let votes := labels (nearestNeighbors limitedData currentK point) in
    forall M, tied votes L M ->
              firstIndex String.eqb L votes < firstIndex String.eqb M votes.

(** A record whose two measurements are numbers. *)
Definition wellFormed (d : Penguin.t) : bool :=
  negb (isNaN (Penguin.bill_length_mm d)) && negb (isNaN (Penguin.bill_depth_mm d)).

Definition validPoint (p : Point.t) : Prop :=
  isNaN (fst p) = false /\ isNaN (snd p) = false.

(** An occupied bin: its first point lies in the bin's cell, and all its
    points satisfy [ok]. *)
Definition occupied (xOf yOf : Point.t -> option float) (r : float)
           (ok : Point.t -> Prop) (b : Hexbin.Bin) : Prop :=
  (exists p0 rest,
      Hexbin.points b = p0 :: rest
      /\ Hexbin.cell r (Scale.toNumber (xOf p0)) (Scale.toNumber (yOf p0))
         = (Hexbin.pi b, Hexbin.pj b))
  /\ Forall ok (Hexbin.points b).

(** "Malformed points are excluded from the neighbour search": the
    distances are those of the well-formed records alone. *)
Definition searchExcludesMalformed (limitedData : list Penguin.t) (point : Point.t) : Prop :=
  distances limitedData point = distances (filter wellFormed limitedData) point.

(** "An empty point set signals InsufficientData". *)
Definition signalsInsufficientData (currentK : Z) (point : Point.t) : Prop :=
  classifyPoint [] currentK point = Throw (UserError "InsufficientData").

(** Concrete inputs used by the examples below. *)
Definition adelie1 : Penguin.t := Penguin.mk "A" 40 18.
Definition adelie2 : Penguin.t := Penguin.mk "A" 42 17.
Definition gentoo1 : Penguin.t := Penguin.mk "B" 50 15.
Definition broken1 : Penguin.t := Penguin.mk "C" nan nan.
Definition broken2 : Penguin.t := Penguin.mk "C" nan 17.
Definition query : Point.t := (41, 17.5)%float.
Definition blank : Svg := mkSvg [] [] None.

(** ** The animation and the controls (App.tsx, lines 136-222)

    The component keeps [k], [isPlaying] and [animationRef]; the messages
    to the video frame and the fullscreen toggle are left out. *)

(** [animate], lines 136-146: the updater handed to [setK].  [nextK] is
    what it returns, [requested] tells whether it called
    [requestAnimationFrame(animate)], [stopped] whether it called
    [setIsPlaying(false)]. *)
Record Tick : Type := mkTick {
  nextK : Z;
  requested : bool;
  stopped : bool
}.

Definition animate (prevK : Z) : Tick :=
  if (prevK <? 100)%Z
  then mkTick (prevK + 1) true false
  else mkTick prevK false true.

(** [n] animation frames in a row, each one run on the [k] the previous
    one left; a frame only runs when the previous one requested it. *)
Fixpoint frames (n : nat) (prevK : Z) : Tick :=
  match n with
  | O => mkTick prevK true false
  | S n' =>
      let t := frames n' prevK in
      if requested t then animate (nextK t) else t
  end.

Module Component.
Record t : Type := mk {
  app : App;
  k : Z;
  isPlaying : bool;
  (** [animationRef.current] names a frame that has neither run nor been
      cancelled. *)
  frame : bool
}.
End Component.

(** What happens to the component. [SliderChange v] carries
    [parseInt(e.target.value)], [None] being [NaN]. *)
Inductive event : Type :=
| Loaded (rows : list Penguin.t)
| KeySpace
| AnimationFrame
| SliderChange (newValue : option Z).

(** The handlers, with the effect on [isPlaying] (lines 177-198) run at
    once: starting sets [k] to 1 and requests a frame, stopping cancels
    the frame. *)
Definition handle (c : Component.t) (e : event) : Component.t :=
  match e with
  | Loaded rows =>
      Component.mk (mkApp rows (svgRef (Component.app c)))
                   (Component.k c) (Component.isPlaying c) (Component.frame c)
  | KeySpace =>
      if negb (Component.isPlaying c)
      then Component.mk (Component.app c) 1 true true
      else Component.mk (Component.app c) (Component.k c) false false
  | AnimationFrame =>
      if Component.frame c
      then
        let t := animate (Component.k c) in
        if stopped t
        then Component.mk (Component.app c) (nextK t) false false
        else Component.mk (Component.app c) (nextK t) (Component.isPlaying c) (requested t)
      else c
  | SliderChange newValue =>
      match newValue with
      | Some n =>
          if (n <=? 100)%Z
          then Component.mk (Component.app c) n (Component.isPlaying c) (Component.frame c)
          else c
      | None => c
      end
  end.

(** [useEffect(() => drawVisualization(k), [data, k])]: the drawing is
    redone when [setData] was called or [k] has a new value. *)
Definition step (c : Component.t) (e : event) : Component.t * completion unit :=
  let c' := handle c e in
  let changed :=
    match e with
    | Loaded _ => true
    | _ => negb (Component.k c' =? Component.k c)%Z
    end in
  if changed
  then
    let (app', r) := drawVisualization (Component.app c') (Component.k c') in
    (Component.mk app' (Component.k c') (Component.isPlaying c') (Component.frame c'), r)
  else (c', Normal tt).

(** A sequence of events; an exception out of the effect ends it. *)
Fixpoint run (c : Component.t) (events : list event) : Component.t * completion unit :=
  match events with
  | [] => (c, Normal tt)
  | e :: rest =>
      let (c', r) := step c e in
      match r with
      | Normal _ => run c' rest
      | Throw x => (c', Throw x)
      end
  end.

(** The component once mounted: no data yet, [k = 1], not playing. *)
Definition mounted : Component.t :=
  Component.mk (mkApp [] (Some blank)) 1 false false.

(** The range input has [min="1"]: the browser hands no smaller value to
    the handler. *)
Definition fromRangeInput (e : event) : Prop :=
  match e with
  | SliderChange (Some n) => (1 <= n)%Z
  | _ => True
  end.

(** ** More vocabulary *)

(** [comparefn] does not ask for [a] to go after [b]. *)
Definition notAfter {A} (comparefn : A -> A -> float) (a b : A) : Prop :=
  (0 <? comparefn a b)%float = false.

(** [comparefn] is a consistent comparator on the elements of [l]: any two
    are comparable, and the order is transitive. *)
Definition consistentOn {A} (comparefn : A -> A -> float) (l : list A) : Prop :=
  (forall a b, In a l -> In b l -> notAfter comparefn a b \/ notAfter comparefn b a)
  /\ (forall a b c, In a l -> In b l -> In c l ->
                    notAfter comparefn a b -> notAfter comparefn b c ->
                    notAfter comparefn a c).

(** The point has numbers for pixel coordinates. *)
Definition onScreen (xOf yOf : Point.t -> option float) (p : Point.t) : bool :=
  negb (isNaN (Scale.toNumber (xOf p)) || isNaN (Scale.toNumber (yOf p))).

(** Two bins that [binsById] keeps apart. *)
Definition otherCell (b b' : Hexbin.Bin) : Prop :=
  ((Hexbin.pi b =? Hexbin.pi b')%float && (Hexbin.pj b =? Hexbin.pj b')%float) = false.

(** The component is in step with its drawing: [k] is within the range of
    the slider, a pending frame belongs to a running animation, and once
    data is loaded the element holds the drawing of the current [data]
    and [k], caption included. *)
Definition inSync (c : Component.t) : Prop :=
  (1 <= Component.k c <= 100)%Z
  /\ (Component.frame c = true -> Component.isPlaying c = true)
  /\ exists svg,
      svgRef (Component.app c) = Some svg
      /\ (data (Component.app c) <> [] ->
          svg = fst (render (data (Component.app c)) (Component.k c))
          /\ caption svg = Some (Component.k c)).

(** [s] has strictly more votes than any other label. *)
Definition plurality (votes : list string) (s : string) : Prop :=
  In s votes
  /\ forall M, M <> s -> occurrences String.eqb M votes < occurrences String.eqb s votes.

(** ** The sort of another engine

    ECMAScript fixes what [Array.prototype.sort] returns only for a
    consistent comparator; the order it returns otherwise is the
    engine's own. *)

(** [comparefn] does not separate [a] and [b]. *)
Definition tiedWith {A} (comparefn : A -> A -> float) (a b : A) : bool :=
  negb (0 <? comparefn a b)%float && negb (0 <? comparefn b a)%float.

(** [consistentOn], as a test. *)
Definition consistentb {A} (comparefn : A -> A -> float) (l : list A) : bool :=
  forallb
    (fun a =>
       forallb
         (fun b =>
            (negb (0 <? comparefn a b)%float || negb (0 <? comparefn b a)%float)
            && forallb
                 (fun c =>
                    implb (negb (0 <? comparefn a b)%float
                           && negb (0 <? comparefn b c)%float)
                          (negb (0 <? comparefn a c)%float))
                 l)
         l)
    l.

(** [comparefn] is a consistent comparison function in the sense of the
    language on the elements of [l]: it is consistent as above, and
    [comparefn(a, b) < 0] exactly when [comparefn(b, a) > 0]. *)
Definition comparable {A} (comparefn : A -> A -> float) (l : list A) : Prop :=
  consistentOn comparefn l
  /\ forall a b, In a l -> In b l ->
                 (comparefn a b <? 0)%float = (0 <? comparefn b a)%float.

Definition comparableb {A} (comparefn : A -> A -> float) (l : list A) : bool :=
  consistentb comparefn l
  && forallb
       (fun a =>
          forallb
            (fun b => Bool.eqb (comparefn a b <? 0)%float (0 <? comparefn b a)%float)
            l)
       l.

(** What the language asks of an engine's sort: the result is a
    rearrangement of the array and, for a consistent comparison function,
    it is in order and stable (the elements that compare equal to any
    given one are in the order they had). *)
Definition conformingSort
           (srt : (Neighbor.t -> Neighbor.t -> float) -> list Neighbor.t -> list Neighbor.t)
  : Prop :=
  forall comparefn arr,
    Permutation (srt comparefn arr) arr
    /\ (comparable comparefn arr ->
        StronglySorted (notAfter comparefn) (srt comparefn arr)
        /\ forall x, In x arr ->
                     filter (tiedWith comparefn x) (srt comparefn arr)
                     = filter (tiedWith comparefn x) arr).

(** An engine that sorts as the model does when the comparison function
    is consistent, and reverses the array when it is not. *)
Definition otherSort (comparefn : Neighbor.t -> Neighbor.t -> float) (arr : list Neighbor.t)
  : list Neighbor.t :=
  if comparableb comparefn arr then JS.sort comparefn arr else rev arr.

(** [classifyPoint], [drawVisualization] and its body on an engine whose
    sort is [srt]. *)
Definition classifyPointWith
           (srt : (Neighbor.t -> Neighbor.t -> float) -> list Neighbor.t -> list Neighbor.t)
           (limitedData : list Penguin.t) (currentK : Z) (point : Point.t)
  : completion string :=
  vote (slice0 (srt byDistance (distances limitedData point)) currentK).

Definition renderWith
           (srt : (Neighbor.t -> Neighbor.t -> float) -> list Neighbor.t -> list Neighbor.t)
           (data : list Penguin.t) (currentK : Z) : Svg * completion unit :=
  let x := xScale data in
  let y := yScale data in
  let limitedData := limitedData data currentK in
  let bins := bins data currentK in
  let '(decision, domain, r) :=
    attrFill (fun d => (x (fst d), y (snd d)))
             (fun d => fmap str (classifyPointWith srt limitedData currentK d))
             [] hexPoints in
  match r with
  | Throw e => (mkSvg decision [] None, Throw e)
  | Normal _ =>
      let '(density, _, r) :=
        attrFill (fun d => (Some (Hexbin.x d), Some (Hexbin.y d)))
                 (fun d => maxSpecies Point.species (Hexbin.points d))
                 domain bins in
      match r with
      | Throw e => (mkSvg decision density None, Throw e)
      | Normal _ => (mkSvg decision density (Some currentK), Normal tt)
      end
  end.

Definition drawVisualizationWith
           (srt : (Neighbor.t -> Neighbor.t -> float) -> list Neighbor.t -> list Neighbor.t)
           (app : App) (currentK : Z) : App * completion unit :=
  match data app, svgRef app with
  | [], _ | _, None => (app, Normal tt)
  | _ :: _, Some _ =>
      let (svg, r) := renderWith srt (data app) currentK in
      (mkApp (data app) (Some svg), r)
  end.

(** The distances to every centre of the grid can be put in order. *)
Definition distancesConsistent (data : list Penguin.t) (currentK : Z) : Prop :=
  forall c, In c hexPoints ->
            comparable byDistance (distances (limitedData data currentK) c).

(** * Facts about the built-ins *)

Section SortFacts.
Variable A : Type.
Variable comparefn : A -> A -> float.

Lemma insert_Permutation (x : A) (l : list A) :
  Permutation (JS.insert comparefn x l) (x :: l).
Proof.
  induction l as [|y ys IH]; simpl.
  - apply Permutation_refl.
  - destruct (0 <? comparefn x y)%float.
    + apply perm_trans with (y :: x :: ys).
      * now apply perm_skip.
      * apply perm_swap.
    + apply Permutation_refl.
Qed.

Lemma sort_Permutation (l : list A) : Permutation (JS.sort comparefn l) l.
Proof.
  induction l as [|x l IH]; simpl.
  - constructor.
  - eapply perm_trans; [apply insert_Permutation|].
    now apply perm_skip.
Qed.

Lemma sort_length (l : list A) : length (JS.sort comparefn l) = length l.
Proof. apply Permutation_length, sort_Permutation. Qed.
End SortFacts.

Example sort_ascending_stable :
  JS.sort (fun a b => (fst a - fst b)%float)
          [(3, 0); (1, 1); (2, 2); (1, 3)]%float
  = [(1, 1); (1, 3); (2, 2); (3, 0)]%float.
Proof. vm_compute. reflexivity. Qed.

Lemma slice0_all {A} (l : list A) (k : Z) :
  (Z.of_nat (length l) <= k)%Z -> slice0 l k = l.
Proof.
  intros Hk. unfold slice0.
  destruct (Z.ltb_spec k 0) as [Hneg|Hpos]; [lia|].
  rewrite Z.min_r by lia. rewrite Nat2Z.id. apply firstn_all.
Qed.

Lemma slice0_length {A} (l : list A) (k : Z) :
  (0 <= k)%Z -> (Z.of_nat (length (slice0 l k)) <= k)%Z.
Proof.
  intros Hk. unfold slice0.
  destruct (Z.ltb_spec k 0) as [Hneg|Hpos]; [lia|].
  rewrite length_firstn. lia.
Qed.

Lemma slice0_nonempty {A} (l : list A) (k : Z) :
  l <> [] -> (1 <= k)%Z -> slice0 l k <> [].
Proof.
  intros Hl Hk. unfold slice0.
  destruct (Z.ltb_spec k 0) as [Hneg|Hpos]; [lia|].
  destruct l as [|a l]; [congruence|].
  assert (Hpos' : (1 <= Z.min k (Z.of_nat (length (a :: l))))%Z)
    by (simpl length; lia).
  destruct (Z.to_nat (Z.min k (Z.of_nat (length (a :: l))))) eqn:E; [lia|].
  simpl. discriminate.
Qed.

Lemma slice0_nil {A} (k : Z) : slice0 (@nil A) k = [].
Proof. unfold slice0. apply firstn_nil. Qed.

(** * Facts about the tally *)

Section StronglySortedFacts.
Variable A : Type.

Lemma StronglySorted_snoc (R : A -> A -> Prop) (l : list A) (k : A) :
  StronglySorted R l -> Forall (fun x => R x k) l -> StronglySorted R (l ++ [k]).
Proof.
  induction 1 as [|a l Hl IH Ha]; intros Hk; simpl.
  - repeat constructor.
  - inversion Hk; subst. constructor.
    + now apply IH.
    + apply Forall_app; split; [assumption|]. now constructor.
Qed.

Lemma StronglySorted_ext_in (R R' : A -> A -> Prop) (l : list A) :
  StronglySorted R l ->
  (forall a b, In a l -> In b l -> R a b -> R' a b) ->
  StronglySorted R' l.
Proof.
  induction 1 as [|a l Hl IH Ha]; intros Hext.
  - constructor.
  - constructor.
    + apply IH. intros x y Hx Hy. apply Hext; now right.
    + rewrite Forall_forall in *. intros x Hx.
      apply Hext; [now left | now right | now apply Ha].
Qed.

Lemma StronglySorted_before (R : A -> A -> Prop) (pre post : list A) (r : A) :
  StronglySorted R (pre ++ r :: post) -> Forall (fun x => R x r) pre.
Proof.
  induction pre as [|a pre IH]; simpl; intros H.
  - constructor.
  - inversion H as [|? ? Hs Ha]; subst. constructor.
    + rewrite Forall_forall in Ha. apply Ha, in_elt.
    + now apply IH.
Qed.
End StronglySortedFacts.

Section CountingFacts.
Variable K : Type.
Variable eqb : K -> K -> bool.
Hypothesis eqb_eq : forall a b, eqb a b = true <-> a = b.

Local Abbreviation occ := (occurrences eqb).
Local Abbreviation fi := (firstIndex eqb).

Lemma eqb_refl' (a : K) : eqb a a = true.
Proof. now apply eqb_eq. Qed.

Lemma eqb_neq (a b : K) : a <> b -> eqb a b = false.
Proof.
  intros H. destruct (eqb a b) eqn:E; [|reflexivity].
  apply eqb_eq in E. contradiction.
Qed.

Lemma eqb_dec (a b : K) : {a = b} + {a <> b}.
Proof.
  destruct (eqb a b) eqn:E.
  - left. now apply eqb_eq.
  - right. intros ->. rewrite eqb_refl' in E. discriminate.
Qed.

Lemma existsb_In (k : K) (l : list K) :
  existsb (fun k' => eqb k' k) l = true <-> In k l.
Proof.
  rewrite existsb_exists. split.
  - intros (x & Hx & E). apply eqb_eq in E. now subst.
  - intros H. exists k. split; [assumption | apply eqb_refl'].
Qed.

Lemma occurrences_app (k : K) (l l' : list K) :
  occ k (l ++ l') = occ k l + occ k l'.
Proof. induction l as [|x l IH]; simpl; [reflexivity | rewrite IH; lia]. Qed.

Lemma occurrences_In (k : K) (l : list K) : In k l <-> 0 < occ k l.
Proof.
  induction l as [|x l IH]; simpl.
  - split; [tauto | lia].
  - destruct (eqb x k) eqn:E.
    + apply eqb_eq in E. split; [lia | now left].
    + split.
      * intros [->|H]; [rewrite eqb_refl' in E; discriminate|].
        apply IH in H. lia.
      * intros H. right. apply IH. simpl in H. lia.
Qed.

Lemma occurrences_notin (k : K) (l : list K) : ~ In k l -> occ k l = 0.
Proof. rewrite occurrences_In. lia. Qed.

Lemma occurrences_Permutation (k : K) (l l' : list K) :
  Permutation l l' -> occ k l = occ k l'.
Proof. induction 1; simpl; lia. Qed.

Lemma firstIndex_app_in (k : K) (l l' : list K) :
  In k l -> fi k (l ++ l') = fi k l.
Proof.
  induction l as [|x l IH]; simpl; [tauto|].
  intros H. destruct (eqb x k) eqn:E; [reflexivity|].
  destruct H as [->|H]; [rewrite eqb_refl' in E; discriminate|].
  now rewrite IH.
Qed.

Lemma firstIndex_snoc_notin (k : K) (l : list K) :
  ~ In k l -> fi k (l ++ [k]) = length l.
Proof.
  induction l as [|x l IH]; simpl; intros H.
  - now rewrite eqb_refl'.
  - rewrite eqb_neq by tauto. rewrite IH by tauto. reflexivity.
Qed.

Lemma firstIndex_lt (k : K) (l : list K) : In k l -> fi k l < length l.
Proof.
  induction l as [|x l IH]; simpl; [tauto|].
  intros H. destruct (eqb x k) eqn:E; [lia|].
  destruct H as [->|H]; [rewrite eqb_refl' in E; discriminate|].
  apply IH in H. lia.
Qed.

(** [firsts] *)

Lemma firsts_snoc (l : list K) (k : K) :
  firsts eqb (l ++ [k]) = pushNew eqb (firsts eqb l) k.
Proof. unfold firsts. now rewrite fold_left_app. Qed.

Lemma pushNew_In (acc : list K) (k s : K) :
  In s (pushNew eqb acc k) <-> In s acc \/ s = k.
Proof.
  unfold pushNew. destruct (existsb _ acc) eqn:E.
  - apply existsb_In in E. split; [tauto|]. intros [H| ->]; assumption.
  - rewrite in_app_iff. simpl. intuition congruence.
Qed.

Lemma firsts_In (s : K) (l : list K) : In s (firsts eqb l) <-> In s l.
Proof.
  induction l as [|k l IH] using rev_ind.
  - reflexivity.
  - rewrite firsts_snoc, pushNew_In, in_app_iff, IH. simpl. intuition congruence.
Qed.

Lemma firsts_sorted (l : list K) :
  StronglySorted (fun a b => fi a l < fi b l) (firsts eqb l).
Proof.
  induction l as [|k l IH] using rev_ind.
  - constructor.
  - rewrite firsts_snoc. unfold pushNew.
    destruct (existsb _ (firsts eqb l)) eqn:E.
    + eapply StronglySorted_ext_in; [exact IH|].
      intros a b Ha Hb Hab.
      apply -> firsts_In in Ha. apply -> firsts_In in Hb.
      now rewrite !firstIndex_app_in by assumption.
    + assert (Hk : ~ In k l).
      { intros H. apply firsts_In, existsb_In in H. congruence. }
      (* [k] is new *)
      apply StronglySorted_snoc.
      * eapply StronglySorted_ext_in; [exact IH|].
        intros a b Ha Hb Hab.
        apply -> firsts_In in Ha. apply -> firsts_In in Hb.
        now rewrite !firstIndex_app_in by assumption.
      * apply Forall_forall. intros a Ha. apply -> firsts_In in Ha.
        rewrite firstIndex_app_in, firstIndex_snoc_notin by assumption.
        now apply firstIndex_lt.
Qed.

Lemma firsts_NoDup (l : list K) : NoDup (firsts eqb l).
Proof.
  induction l as [|k l IH] using rev_ind.
  - constructor.
  - rewrite firsts_snoc. unfold pushNew.
    destruct (existsb _ (firsts eqb l)) eqn:E; [assumption|].
    apply NoDup_app; [assumption | repeat constructor; simpl; tauto |].
    intros a Ha [<-|[]]. apply existsb_In in Ha. congruence.
Qed.
End CountingFacts.

Section RollupFacts.
Variables V K : Type.
Variable eqb : K -> K -> bool.
Hypothesis eqb_eq : forall a b, eqb a b = true <-> a = b.
Variable keyof : V -> K.

Local Abbreviation occ := (occurrences eqb).
Local Abbreviation count := (D3.rollup eqb (R := nat)).

Lemma group_snoc (vs : list V) (v : V) :
  D3.group eqb (vs ++ [v]) keyof
  = D3.group_push eqb (D3.group eqb vs keyof) (keyof v) v.
Proof. unfold D3.group. now rewrite fold_left_app. Qed.

Lemma group_push_lengths (groups : list (K * list V)) (k : K) (v : V) :
  map (fun entry => (fst entry, length (snd entry))) (D3.group_push eqb groups k v)
  = countPush eqb (map (fun entry => (fst entry, length (snd entry))) groups) k.
Proof.
  induction groups as [|[k' vs] rest IH]; simpl.
  - reflexivity.
  - destruct (eqb k' k); simpl.
    + rewrite length_app. simpl. f_equal. f_equal. lia.
    + now rewrite IH.
Qed.

Lemma rollup_snoc (vs : list V) (v : V) :
  count (vs ++ [v]) (@length V) keyof
  = countPush eqb (count vs (@length V) keyof) (keyof v).
Proof. unfold D3.rollup. now rewrite group_snoc, group_push_lengths. Qed.

Lemma occurrences_snoc (s k : K) (l : list K) :
  occ s (l ++ [k]) = occ s l + (if eqb k s then 1 else 0).
Proof. rewrite occurrences_app. simpl. lia. Qed.

(** Counting one more [k] in a table that lists each key of [seen] once,
    with its number of occurrences. *)
Lemma countPush_occurrences (seen ks : list K) (k : K) :
  NoDup ks ->
  (~ In k ks -> occ k seen = 0) ->
  countPush eqb (map (fun s => (s, occ s seen)) ks) k
  = map (fun s => (s, occ s (seen ++ [k]))) (pushNew eqb ks k).
Proof.
  induction ks as [|s ks IH]; intros Hnd Hnew.
  - simpl. rewrite occurrences_snoc, Hnew, (eqb_refl' eqb eqb_eq) by tauto.
    reflexivity.
  - inversion Hnd as [|? ? Hs Hnd']; subst. unfold pushNew. simpl.
    destruct (eqb s k) eqn:E; simpl.
    + apply eqb_eq in E. subst s.
      rewrite occurrences_snoc, (eqb_refl' eqb eqb_eq). f_equal; [f_equal; lia|].
      apply map_ext_in. intros a Ha.
      rewrite occurrences_snoc, (eqb_neq eqb eqb_eq); [f_equal; lia|].
      intros ->. contradiction.
    + assert (Hsk : s <> k).
      { intros ->. rewrite (eqb_refl' eqb eqb_eq) in E. discriminate. }
      rewrite IH; [|assumption|].
      * unfold pushNew.
        destruct (existsb (fun k' => eqb k' k) ks); simpl;
          rewrite occurrences_snoc, (eqb_neq eqb eqb_eq) by congruence;
          f_equal; f_equal; lia.
      * intros H. apply Hnew. simpl. intuition congruence.
Qed.

(** The entries of the count: every distinct key, in order of first
    occurrence, with its number of occurrences. *)
Lemma rollup_length_char (vs : list V) :
  count vs (@length V) keyof
  = map (fun s => (s, occ s (map keyof vs))) (firsts eqb (map keyof vs)).
Proof.
  induction vs as [|v vs IH] using rev_ind.
  - reflexivity.
  - rewrite rollup_snoc, IH, map_app. simpl map at 3 4.
    rewrite (firsts_snoc eqb).
    apply countPush_occurrences.
    + now apply firsts_NoDup.
    + intros H. apply (occurrences_notin eqb eqb_eq).
      intros H'. apply H. now apply (firsts_In eqb eqb_eq).
Qed.

Lemma Map_get_table (f : K -> nat) (ks : list K) (s : K) :
  Map_get eqb (map (fun k => (k, f k)) ks) s
  = if existsb (fun k' => eqb k' s) ks then Some (f s) else None.
Proof.
  induction ks as [|k ks IH]; simpl; [reflexivity|].
  destruct (eqb k s) eqn:E; simpl; [|assumption].
  apply eqb_eq in E. now subst.
Qed.

Lemma Map_get_rollup (vs : list V) (s : K) :
  Map_get eqb (count vs (@length V) keyof) s
  = if occ s (map keyof vs) =? 0 then None else Some (occ s (map keyof vs)).
Proof.
  rewrite rollup_length_char, Map_get_table.
  destruct (existsb _ _) eqn:E.
  - apply -> (existsb_In eqb eqb_eq) in E. apply -> (firsts_In eqb eqb_eq) in E.
    apply -> (occurrences_In eqb eqb_eq) in E.
    destruct (Nat.eqb_spec (occ s (map keyof vs)) 0); [lia | reflexivity].
  - destruct (Nat.eqb_spec (occ s (map keyof vs)) 0) as [|Hn]; [reflexivity|].
    assert (H : In s (map keyof vs)) by (apply (occurrences_In eqb eqb_eq); lia).
    apply <- (firsts_In eqb eqb_eq) in H. apply <- (existsb_In eqb eqb_eq) in H.
    congruence.
Qed.

Lemma rollup_nonempty (vs : list V) :
  vs <> [] -> count vs (@length V) keyof <> [].
Proof.
  intros Hvs. rewrite rollup_length_char.
  destruct vs as [|v vs]; [congruence|].
  assert (H : In (keyof v) (firsts eqb (map keyof (v :: vs))))
    by (apply (firsts_In eqb eqb_eq); now left).
  destruct (firsts eqb (map keyof (v :: vs))); [destruct H | discriminate].
Qed.
End RollupFacts.

(** [reduce(pick)] returns an entry with the largest count; the entries
    behind it in the array have strictly smaller counts. *)
Section PickFacts.
Variable K : Type.

Lemma fold_pick_split (rest : list (K * nat)) (a : K * nat) :
  exists pre post,
    a :: rest = pre ++ fold_left pick rest a :: post
    /\ Forall (fun e => snd e <= snd (fold_left pick rest a)) pre
    /\ Forall (fun e => snd e < snd (fold_left pick rest a)) post.
Proof.
  induction rest as [|b rest IH] using rev_ind; simpl.
  - exists [], []. repeat split; constructor.
  - rewrite fold_left_app. simpl.
    destruct IH as (pre & post & Heq & Hpre & Hpost).
    set (r := fold_left pick rest a) in *.
    unfold pick. destruct (Nat.ltb_spec (snd b) (snd r)) as [Hlt|Hge].
    + exists pre, (post ++ [b]). repeat split.
      * rewrite app_comm_cons, Heq, <- app_assoc. reflexivity.
      * assumption.
      * apply Forall_app. split; [assumption | now constructor].
    + exists (a :: rest), []. repeat split.
      * rewrite Heq. apply Forall_app. split.
        -- eapply Forall_impl; [|exact Hpre]. simpl. intros; lia.
        -- constructor; [lia|].
           eapply Forall_impl; [|exact Hpost]. simpl. intros; lia.
      * constructor.
Qed.

Lemma reduce_pick_split (entries : list (K * nat)) (r : K * nat) :
  reduce pick entries = Normal r ->
  exists pre post,
    entries = pre ++ r :: post
    /\ Forall (fun e => snd e <= snd r) pre
    /\ Forall (fun e => snd e < snd r) post.
Proof.
  destruct entries as [|a rest]; simpl; [discriminate|].
  intros [= <-]. apply fold_pick_split.
Qed.

Lemma reduce_pick_nonempty (entries : list (K * nat)) :
  entries <> [] -> exists r, reduce pick entries = Normal r.
Proof.
  destruct entries as [|a rest]; [congruence|]. intros _. simpl. eauto.
Qed.
End PickFacts.

(** * [classifyPoint] *)

Lemma value_eqb_eq (a b : JS.value) : value_eqb a b = true <-> a = b.
Proof.
  destruct a as [|s], b as [|t]; simpl; split; try congruence.
  - intros H. apply String.eqb_eq in H. now subst.
  - intros [= ->]. apply String.eqb_refl.
Qed.

Lemma tally_char (nn : list Neighbor.t) :
  tally nn
  = map (fun s => (s, occurrences String.eqb s (labels nn)))
        (firsts String.eqb (labels nn)).
Proof. apply rollup_length_char, String.eqb_eq. Qed.

Lemma labels_distances (ld : list Penguin.t) (q : Point.t) :
  labels (distances ld q) = map Penguin.species ld.
Proof. unfold labels, distances. rewrite map_map. reflexivity. Qed.

Lemma labels_sortedDistances (ld : list Penguin.t) (q : Point.t) :
  Permutation (labels (sortedDistances ld q)) (map Penguin.species ld).
Proof.
  rewrite <- (labels_distances ld q). unfold labels, sortedDistances.
  apply Permutation_map, sort_Permutation.
Qed.

Lemma sortedDistances_length (ld : list Penguin.t) (q : Point.t) :
  length (sortedDistances ld q) = length ld.
Proof. unfold sortedDistances, distances. now rewrite sort_length, length_map. Qed.

Lemma nearestNeighbors_all (ld : list Penguin.t) (k : Z) (q : Point.t) :
  (Z.of_nat (length ld) <= k)%Z ->
  nearestNeighbors ld k q = sortedDistances ld q.
Proof.
  intros Hk. unfold nearestNeighbors. apply slice0_all.
  now rewrite sortedDistances_length.
Qed.

Lemma nearestNeighbors_nonempty (ld : list Penguin.t) (k : Z) (q : Point.t) :
  ld <> [] -> (1 <= k)%Z -> nearestNeighbors ld k q <> [].
Proof.
  intros Hld Hk. unfold nearestNeighbors. apply slice0_nonempty; [|assumption].
  intros E. apply (f_equal (@length _)) in E.
  rewrite sortedDistances_length in E. destruct ld; [congruence | discriminate].
Qed.

(** What [vote] returns: a label of the list with the largest number of
    votes, and among the labels with that many votes the one met last. *)
Lemma vote_spec (nn : list Neighbor.t) (L : string) :
  vote nn = Normal L ->
  In L (labels nn)
  /\ (forall M, occurrences String.eqb M (labels nn) <= occurrences String.eqb L (labels nn))
  /\ (forall M, tied (labels nn) L M ->
                firstIndex String.eqb M (labels nn) < firstIndex String.eqb L (labels nn)).
Proof.
  unfold vote, fmap, bind. destruct (reduce pick (tally nn)) as [r|e] eqn:R; [|discriminate].
  intros [= <-].
  apply reduce_pick_split in R. destruct R as (pre & post & Heq & Hpre & Hpost).
  rewrite tally_char in Heq.
  apply map_eq_app in Heq. destruct Heq as (ks1 & ks' & Hks & Hpre' & Hrest).
  apply map_eq_cons in Hrest. destruct Hrest as (L & ks2 & -> & Hr & Hpost').
  subst r pre post. simpl in *.
  set (votes := labels nn) in *.
  assert (HL : In L votes).
  { apply (firsts_In String.eqb String.eqb_eq). rewrite Hks. apply in_elt. }
  assert (Hcases : forall M, In M votes ->
            (In M ks1 /\ occurrences String.eqb M votes <= occurrences String.eqb L votes)
            \/ M = L
            \/ occurrences String.eqb M votes < occurrences String.eqb L votes).
  { intros M HM. apply (firsts_In String.eqb String.eqb_eq) in HM.
    rewrite Hks in HM. apply in_app_or in HM. destruct HM as [HM|[HM|HM]].
    - left. split; [assumption|].
      rewrite Forall_map, Forall_forall in Hpre. now apply Hpre.
    - right; left. now subst.
    - right; right.
      rewrite Forall_map, Forall_forall in Hpost. now apply Hpost. }
  split; [assumption|]. split.
  - intros M. destruct (in_dec string_dec M votes) as [HM|HM].
    + destruct (Hcases M HM) as [[_ H]|[->|H]]; lia.
    + rewrite (occurrences_notin String.eqb String.eqb_eq M votes HM). lia.
  - intros M [Hne Htie].
    assert (HM : In M votes).
    { apply (occurrences_In String.eqb String.eqb_eq). rewrite Htie.
      now apply (occurrences_In String.eqb String.eqb_eq). }
    destruct (Hcases M HM) as [[H _]|[->|H]]; [|congruence|lia].
    pose proof (firsts_sorted String.eqb String.eqb_eq votes) as Hs.
    rewrite Hks in Hs. apply StronglySorted_before in Hs.
    rewrite Forall_forall in Hs. now apply Hs.
Qed.

Lemma vote_nonempty (nn : list Neighbor.t) :
  nn <> [] -> exists L, vote nn = Normal L.
Proof.
  intros Hnn. unfold vote.
  destruct (@reduce_pick_nonempty string (tally nn)) as [r Hr].
  - now apply rollup_nonempty; [apply String.eqb_eq|].
  - rewrite Hr. simpl. eauto.
Qed.

Lemma vote_nil : vote [] = Throw (TypeError "Reduce of empty array with no initial value").
Proof. reflexivity. Qed.

(** ** The two copies of the majority rule *)

Lemma occurrences_str (s : string) (l : list string) :
  occurrences value_eqb (str s) (map str l) = occurrences String.eqb s l.
Proof. induction l as [|x l IH]; simpl; [reflexivity | now rewrite IH]. Qed.

Lemma existsb_str (k : string) (ks : list string) :
  existsb (fun k' => value_eqb k' (str k)) (map str ks)
  = existsb (fun k' => String.eqb k' k) ks.
Proof. induction ks as [|x ks IH]; simpl; [reflexivity | now rewrite IH]. Qed.

Lemma firsts_str (l : list string) :
  firsts value_eqb (map str l) = map str (firsts String.eqb l).
Proof.
  induction l as [|k l IH] using rev_ind.
  - reflexivity.
  - rewrite map_app. simpl map. rewrite !firsts_snoc, IH.
    unfold pushNew. rewrite existsb_str.
    destruct (existsb _ (firsts String.eqb l)); [reflexivity|].
    now rewrite map_app.
Qed.

Lemma fold_pick_map {K K'} (f : K -> K') (rest : list (K * nat)) (a : K * nat) :
  fold_left pick (map (fun e => (f (fst e), snd e)) rest) (f (fst a), snd a)
  = (f (fst (fold_left pick rest a)), snd (fold_left pick rest a)).
Proof.
  revert a. induction rest as [|b rest IH]; intros a; simpl; [reflexivity|].
  unfold pick at 2 4 6. unfold pick at 2. simpl.
  destruct (snd b <? snd a); apply IH.
Qed.

Lemma maxSpecies_str {A} (speciesOf : A -> string) (d : list A) :
  maxSpecies (fun x => str (speciesOf x)) d
  = fmap (fun e => str (fst e))
         (reduce pick (map (fun s => (s, occurrences String.eqb s (map speciesOf d)))
                           (firsts String.eqb (map speciesOf d)))).
Proof.
  unfold maxSpecies.
  rewrite (rollup_length_char value_eqb value_eqb_eq).
  rewrite <- (map_map speciesOf str), firsts_str, map_map.
  set (ks := firsts String.eqb (map speciesOf d)).
  rewrite (map_ext _ (fun s => (str s, occurrences String.eqb s (map speciesOf d))))
    by (intros s; now rewrite occurrences_str).
  destruct ks as [|k ks]; [reflexivity|]. simpl.
  rewrite <- (map_map (fun s => (s, occurrences String.eqb s (map speciesOf d)))
                      (fun e => (str (fst e), snd e))).
  rewrite (fold_pick_map str _ (k, occurrences String.eqb k (map speciesOf d))).
  reflexivity.
Qed.

(** A bin of [hexbinGenerator(points)] holds coordinate pairs, whose
    [.species] is [undefined]: its majority is [undefined]. *)
Lemma maxSpecies_points (d : list Point.t) :
  d <> [] -> maxSpecies Point.species d = Normal undefined.
Proof.
  intros Hd. unfold maxSpecies.
  destruct (@reduce_pick_nonempty JS.value (D3.rollup value_eqb d (@length _) Point.species))
    as [r Hr].
  - now apply rollup_nonempty; [apply value_eqb_eq|].
  - rewrite Hr. simpl. f_equal.
    apply reduce_pick_split in Hr. destruct Hr as (pre & post & Heq & _).
    assert (Hin : In r (D3.rollup value_eqb d (@length _) Point.species))
      by (rewrite Heq; apply in_elt).
    rewrite (rollup_length_char value_eqb value_eqb_eq) in Hin.
    apply in_map_iff in Hin. destruct Hin as (s & <- & Hs). simpl.
    apply -> (firsts_In value_eqb value_eqb_eq) in Hs.
    apply in_map_iff in Hs. now destruct Hs as (p & <- & _).
Qed.

(** ** The claims about [classifyPoint] *)

Unset Implicit Arguments.

(** For [k >= 1] the neighbours are the whole of [data.slice(0, k)],
    rearranged. *)
Lemma neighbours_truncated_aux (data : list Penguin.t) (k : Z) (q : Point.t) :
  (1 <= k)%Z ->
  Permutation (labels (nearestNeighbors (limitedData data k) k q))
              (map Penguin.species (limitedData data k)).
Proof.
  intros Hk. rewrite nearestNeighbors_all.
  - apply labels_sortedDistances.
  - apply slice0_length. lia.
Qed.

Lemma classifyPoint_Normal (points : list Penguin.t) (k : Z) (q : Point.t) :
  points <> [] -> (1 <= k)%Z -> exists L, classifyPoint points k q = Normal L.
Proof.
  intros Hp Hk. unfold classifyPoint.
  apply vote_nonempty. now apply nearestNeighbors_nonempty.
Qed.

(** C1, as stated, fails: with one "A" nearest and one "B" behind it, both
    labels have one vote and [classifyPoint] returns "B", the label met
    last, although "A" is the first label of the neighbour list. *)
Lemma classifyPoint_first_tied_wins_fails :
  ~ firstTiedWins [adelie1; gentoo1] 2 query.
Proof.
  intros H.
  assert (Hc : classifyPoint [adelie1; gentoo1] 2 query = Normal "B"%string)
    by (vm_compute; reflexivity).
  specialize (H "B"%string Hc "A"%string).
  assert (Ht : tied (labels (nearestNeighbors [adelie1; gentoo1] 2 query))
                    "B"%string "A"%string).
  { split; [discriminate | vm_compute; reflexivity]. }
  specialize (H Ht). vm_compute in H. lia.
Qed.

(** C1 (amended): when several labels reach the highest vote count among
    the neighbours, [classifyPoint] returns the tied label met last: the
    returned label is one of the neighbours' labels, no label has more
    votes, and every other label with as many votes has its first
    occurrence earlier in the distance-sorted neighbour list. *)
Theorem classifyPoint_tie_break_last
        (limitedData : list Penguin.t) (currentK : Z) (point : Point.t) (L : string) :
  classifyPoint limitedData currentK point = Normal L ->
  let votes := labels (nearestNeighbors limitedData currentK point) in
  In L votes
  /\ (forall M, occurrences String.eqb M votes <= occurrences String.eqb L votes)
  /\ (forall M, tied votes L M ->
                firstIndex String.eqb M votes < firstIndex String.eqb L votes).
Proof. intros H. now apply vote_spec. Qed.

Lemma classifyPoint_tie_break_last_witness :
  classifyPoint [adelie1; gentoo1] 2 query = Normal "B"%string
  /\ (let votes := labels (nearestNeighbors [adelie1; gentoo1] 2 query) in
      In "B"%string votes
      /\ (forall M, occurrences String.eqb M votes <= occurrences String.eqb "B"%string votes)
      /\ (forall M, tied votes "B"%string M ->
                    firstIndex String.eqb M votes < firstIndex String.eqb "B"%string votes)).
Proof.
  split.
  - vm_compute; reflexivity.
  - apply (classifyPoint_tie_break_last [adelie1; gentoo1] 2 query "B"%string).
    vm_compute; reflexivity.
Defined.

(** C2: inside [drawVisualization] the point set is [data.slice(0, k)] and
    the neighbours are [distances.slice(0, k)] for the same [k >= 1], so the
    neighbour list is the whole sorted list, a rearrangement of the
    truncated data; the tally gives every species the same count whatever
    the query, and a returned label always has the largest of these
    counts: two queries can only differ in which of the tied labels they
    return. *)
Theorem neighbours_are_the_truncated_data
        (data : list Penguin.t) (k : Z) (q : Point.t) :
  (1 <= k)%Z ->
  let ld := limitedData data k in
  nearestNeighbors ld k q = sortedDistances ld q
  /\ Permutation (labels (nearestNeighbors ld k q)) (map Penguin.species ld)
  /\ (forall q' s,
         Map_get String.eqb (speciesCount ld k q) s
         = Map_get String.eqb (speciesCount ld k q') s)
  /\ (forall L,
         classifyPoint ld k q = Normal L ->
         forall s, occurrences String.eqb s (map Penguin.species ld)
                   <= occurrences String.eqb L (map Penguin.species ld)).
Proof.
  intros Hk ld.
  assert (Hlen : (Z.of_nat (length ld) <= k)%Z)
    by (apply slice0_length; lia).
  assert (Hall : forall p, nearestNeighbors ld k p = sortedDistances ld p)
    by (intros p; now apply nearestNeighbors_all).
  assert (Hperm : forall p, Permutation (labels (nearestNeighbors ld k p))
                                        (map Penguin.species ld)).
  { intros p. rewrite Hall. apply labels_sortedDistances. }
  repeat split.
  - apply Hall.
  - apply Hperm.
  - intros q' s. unfold speciesCount, tally.
    rewrite !(Map_get_rollup String.eqb String.eqb_eq).
    fold (labels (nearestNeighbors ld k q)) (labels (nearestNeighbors ld k q')).
    now rewrite (occurrences_Permutation String.eqb s (Hperm q)),
                (occurrences_Permutation String.eqb s (Hperm q')).
  - intros L HL s. apply vote_spec in HL. destruct HL as (_ & Hmax & _).
    specialize (Hmax s).
    now rewrite !(occurrences_Permutation String.eqb _ (Hperm q)) in Hmax.
Qed.

Lemma neighbours_are_the_truncated_data_witness :
  (1 <= 2)%Z
  /\ (let ld := limitedData [adelie1; adelie2; gentoo1] 2 in
      nearestNeighbors ld 2 query = sortedDistances ld query
      /\ Permutation (labels (nearestNeighbors ld 2 query)) (map Penguin.species ld)
      /\ (forall q' s,
             Map_get String.eqb (speciesCount ld 2 query) s
             = Map_get String.eqb (speciesCount ld 2 q') s)
      /\ (forall L,
             classifyPoint ld 2 query = Normal L ->
             forall s, occurrences String.eqb s (map Penguin.species ld)
                       <= occurrences String.eqb L (map Penguin.species ld))).
Proof.
  split.
  - lia.
  - apply (neighbours_are_the_truncated_data [adelie1; adelie2; gentoo1] 2 query). lia.
Defined.

(** C5: for a non-empty point set and [k >= |points|], [classifyPoint]
    with [k] does not fail: it returns a label, the very label it returns
    with [|points|]; [slice(0, k)] clamps to the length of the array. *)
Theorem classifyPoint_clamps
        (q : Point.t) (points : list Penguin.t) (k : Z) :
  points <> [] ->
  (Z.of_nat (length points) <= k)%Z ->
  exists L,
    classifyPoint points k q = Normal L
    /\ classifyPoint points (Z.of_nat (length points)) q = Normal L.
Proof.
  intros Hp Hk.
  assert (Hlen : (1 <= Z.of_nat (length points))%Z).
  { destruct points; [congruence | simpl length; lia]. }
  destruct (classifyPoint_Normal points k q Hp) as [L HL]; [lia|].
  exists L. split; [exact HL|].
  rewrite <- HL. unfold classifyPoint.
  rewrite !nearestNeighbors_all by lia. reflexivity.
Qed.

Lemma classifyPoint_clamps_witness :
  [adelie1; adelie2; gentoo1] <> []
  /\ (Z.of_nat (length [adelie1; adelie2; gentoo1]) <= 7)%Z
  /\ exists L,
      classifyPoint [adelie1; adelie2; gentoo1] 7 query = Normal L
      /\ classifyPoint [adelie1; adelie2; gentoo1]
                       (Z.of_nat (length [adelie1; adelie2; gentoo1])) query
         = Normal L.
Proof.
  split; [discriminate|]. split; [simpl; lia|].
  apply (classifyPoint_clamps query [adelie1; adelie2; gentoo1] 7);
    [discriminate | simpl; lia].
Defined.

(** C6: over a point set with at least one point and for [k >= 1],
    [classifyPoint] returns a label and throws nothing. *)
Theorem classifyPoint_returns_a_label
        (points : list Penguin.t) (k : Z) (q : Point.t) :
  points <> [] ->
  (1 <= k)%Z ->
  (exists L, classifyPoint points k q = Normal L)
  /\ (forall e, classifyPoint points k q <> Throw e).
Proof.
  intros Hp Hk.
  destruct (classifyPoint_Normal points k q Hp Hk) as [L HL].
  rewrite HL. split; [eauto | discriminate].
Qed.

Lemma classifyPoint_returns_a_label_witness :
  [adelie1; adelie2; gentoo1] <> []
  /\ (1 <= 1)%Z
  /\ (exists L, classifyPoint [adelie1; adelie2; gentoo1] 1 query = Normal L)
  /\ (forall e, classifyPoint [adelie1; adelie2; gentoo1] 1 query <> Throw e).
Proof.
  split; [discriminate|]. split; [lia|].
  apply (classifyPoint_returns_a_label [adelie1; adelie2; gentoo1] 1 query);
    [discriminate | lia].
Defined.

(** C9: the majority computed for a bin (lines 101-102) and the
    classifier's vote (lines 80-81) are the same tally and the same pick:
    on any list of labelled points, whatever distances the classifier
    attaches to them, both give the same label or both fail. *)
Theorem maxSpecies_is_vote (d : list Penguin.t) (q : Point.t) :
  maxSpecies (fun p => str (Penguin.species p)) d
  = fmap str (vote (distances d q)).
Proof.
  rewrite maxSpecies_str. unfold vote.
  rewrite tally_char, labels_distances.
  destruct (reduce pick _); reflexivity.
Qed.

(** * The hexagonal binning *)

Section HexbinFacts.
Variable xOf yOf : Point.t -> option float.
Variable r : float.

Lemma push_Forall (P : Hexbin.Bin -> Prop) (bins : list Hexbin.Bin)
      (i j : float) (p : Point.t) :
  P (Hexbin.mkBin [p] i j ((i + Hexbin.and1 j / 2) * Hexbin.dx r) (j * Hexbin.dy r))%float ->
  (forall b, P b ->
             P (Hexbin.mkBin (Hexbin.points b ++ [p]) (Hexbin.pi b) (Hexbin.pj b)
                             (Hexbin.x b) (Hexbin.y b))) ->
  Forall P bins ->
  Forall P (Hexbin.push r bins i j p).
Proof.
  intros Hnew Hadd. induction 1 as [|b bins Hb Hbins IH]; simpl.
  - constructor; [exact Hnew | constructor].
  - destruct ((Hexbin.pi b =? i)%float && (Hexbin.pj b =? j)%float).
    + constructor; [now apply Hadd | assumption].
    + constructor; assumption.
Qed.

(** A bin is created by a point of the input that falls into its cell,
    and it only ever receives points whose pixel coordinates are
    numbers. *)
Lemma hexbin_Forall (ok : Point.t -> Prop) (pts : list Point.t) :
  (forall p, In p pts ->
             isNaN (Scale.toNumber (xOf p)) = false ->
             isNaN (Scale.toNumber (yOf p)) = false -> ok p) ->
  Forall (occupied xOf yOf r ok) (Hexbin.hexbin xOf yOf r pts).
Proof.
  unfold Hexbin.hexbin.
  assert (G : forall acc,
             (forall p, In p pts ->
                        isNaN (Scale.toNumber (xOf p)) = false ->
                        isNaN (Scale.toNumber (yOf p)) = false -> ok p) ->
             Forall (occupied xOf yOf r ok) acc ->
             Forall (occupied xOf yOf r ok) (fold_left (Hexbin.step xOf yOf r) pts acc)).
  { induction pts as [|p pts IH]; intros acc Hok Hacc; simpl; [assumption|].
    apply IH; [intros q Hq; apply Hok; now right|].
    unfold Hexbin.step.
    destruct (isNaN (Scale.toNumber (xOf p))) eqn:Ex; simpl; [assumption|].
    destruct (isNaN (Scale.toNumber (yOf p))) eqn:Ey; simpl; [assumption|].
    destruct (Hexbin.cell r _ _) as [i j] eqn:Ec.
    assert (Hp : ok p) by (apply Hok; [now left | assumption | assumption]).
    apply push_Forall.
    - split; [|now repeat constructor].
      exists p, []. split; [reflexivity | exact Ec].
    - intros b [(p0 & rest & Hpts & Hcell) Hps]. split.
      + exists p0, (rest ++ [p]). simpl. split; [now rewrite Hpts | exact Hcell].
      + simpl. apply Forall_app. split; [assumption | now repeat constructor].
    - assumption. }
  intros Hok. apply G; [assumption | constructor].
Qed.
End HexbinFacts.

Lemma isNaN_scaleLinear (domain range : float * float) (v : float) :
  isNaN (Scale.toNumber (Scale.scaleLinear domain range v)) = false ->
  isNaN v = false.
Proof.
  unfold Scale.scaleLinear. destruct (isNaN v); [|reflexivity].
  simpl. intros H. exact H.
Qed.

(** The bins of [drawVisualization]: each has a first point, which is
    one of [points] and lies in the bin's cell. *)
Lemma bins_occupied (data : list Penguin.t) (k : Z) :
  Forall (fun b =>
            (exists p0 rest,
                Hexbin.points b = p0 :: rest
                /\ Hexbin.cell 10 (Scale.toNumber (xScale data (fst p0)))
                                  (Scale.toNumber (yScale data (snd p0)))
                   = (Hexbin.pi b, Hexbin.pj b))
            /\ Forall (fun p => In p (points data k) /\ validPoint p)
                      (Hexbin.points b))
         (bins data k).
Proof.
  unfold bins, hexbinGenerator.
  apply (hexbin_Forall (fun d => xScale data (fst d)) (fun d => yScale data (snd d)) 10).
  intros p Hp Hx Hy. split; [assumption|]. split.
  - exact (isNaN_scaleLinear _ _ _ Hx).
  - exact (isNaN_scaleLinear _ _ _ Hy).
Qed.

Lemma bins_nonempty (data : list Penguin.t) (k : Z) :
  Forall (fun b => Hexbin.points b <> []) (bins data k).
Proof.
  eapply Forall_impl; [|apply bins_occupied].
  intros b [(p0 & rest & Hpts & _) _]. rewrite Hpts. discriminate.
Qed.

(** The loops of [hexbin.centers()] end within the fuel. *)
Lemma hexPoints_centers :
  Hexbin.centers 10 margin_left margin_top (width - margin_right)%float
                 (height - margin_bottom)%float 100
  = Some hexPoints.
Proof.
  unfold hexPoints.
  destruct (Hexbin.centers _ _ _ _ _ _) as [c|] eqn:E; [reflexivity|].
  vm_compute in E. discriminate E.
Qed.

(** * The drawing *)

Section AttrFillFacts.
Variable A : Type.
Variable transformOf : A -> option float * option float.
Variable value : A -> completion JS.value.

Lemma attrFill_transform (nodes : list A) (domain : list JS.value) :
  map transform (fst (fst (attrFill transformOf value domain nodes)))
  = map transformOf nodes.
Proof.
  revert domain. induction nodes as [|d rest IH]; intros domain; simpl.
  - reflexivity.
  - destruct (value d) as [v|e].
    + destruct (color domain v) as [domain' c].
      specialize (IH domain').
      destruct (attrFill transformOf value domain' rest) as [[paths domain''] r0].
      simpl in *. now f_equal.
    + simpl. f_equal. rewrite map_map. reflexivity.
Qed.

(** When [value] returns on every node, every node gets the colour of
    its value and the pass completes. *)
Lemma attrFill_Normal (P : A -> Prop) (nodes : list A) :
  Forall P nodes ->
  (forall n, P n -> exists v, value n = Normal v) ->
  forall domain,
    snd (attrFill transformOf value domain nodes) = Normal tt
    /\ Forall2 (fun n p =>
                  P n
                  /\ transform p = transformOf n
                  /\ exists v domain', value n = Normal v
                                       /\ fill p = Some (snd (color domain' v)))
               nodes (fst (fst (attrFill transformOf value domain nodes))).
Proof.
  intros HP Hval. induction HP as [|d rest Hd Hrest IH]; intros domain; simpl.
  - split; [reflexivity | constructor].
  - destruct (Hval d Hd) as [v Hv]. rewrite Hv.
    destruct (color domain v) as [domain' c] eqn:Ec.
    destruct (IH domain') as [Hr Hf].
    destruct (attrFill transformOf value domain' rest) as [[paths domain''] r0].
    simpl in *. split; [assumption|].
    constructor; [|assumption].
    split; [assumption|]. split; [reflexivity|].
    exists v, domain. rewrite Ec. now split.
Qed.
End AttrFillFacts.

Lemma drawVisualization_mounted (d : Penguin.t) (ds : list Penguin.t) (prior : Svg) (k : Z) :
  drawVisualization (mkApp (d :: ds) (Some prior)) k
  = (mkApp (d :: ds) (Some (fst (render (d :: ds) k))), snd (render (d :: ds) k)).
Proof.
  unfold drawVisualization. cbn [data svgRef].
  destruct (render (d :: ds) k) as [svg r]. reflexivity.
Qed.

Lemma drawVisualization_no_data (svg : option Svg) (k : Z) :
  drawVisualization (mkApp [] svg) k = (mkApp [] svg, Normal tt).
Proof. reflexivity. Qed.

Lemma drawVisualization_idempotent (app : App) (k : Z) :
  drawVisualization (fst (drawVisualization app k)) k = drawVisualization app k.
Proof.
  destruct app as [[|d ds] [prior|]]; try reflexivity.
  rewrite drawVisualization_mounted. cbn [fst].
  now rewrite drawVisualization_mounted.
Qed.

Lemma limitedData_nonempty (data : list Penguin.t) (k : Z) :
  data <> [] -> (1 <= k)%Z -> limitedData data k <> [].
Proof. intros. now apply slice0_nonempty. Qed.

(** What [render] draws when the truncated data is not empty. *)
Lemma render_Normal (data : list Penguin.t) (k : Z) :
  limitedData data k <> [] ->
  (1 <= k)%Z ->
  snd (render data k) = Normal tt
  /\ caption (fst (render data k)) = Some k
  /\ Forall2 (fun c p =>
                transform p = (xScale data (fst c), yScale data (snd c))
                /\ exists L domain,
                    classifyPoint (limitedData data k) k c = Normal L
                    /\ fill p = Some (snd (color domain (str L))))
             hexPoints (decisionLayer (fst (render data k)))
  /\ Forall2 (fun b p =>
                Hexbin.points b <> []
                /\ transform p = (Some (Hexbin.x b), Some (Hexbin.y b))
                /\ exists domain, fill p = Some (snd (color domain undefined)))
             (bins data k) (densityLayer (fst (render data k))).
Proof.
  intros Hld Hk. unfold render. cbv zeta.
  assert (Hc : forall n, True -> exists v,
               fmap str (classifyPoint (limitedData data k) k n) = Normal v).
  { intros n _.
    destruct (classifyPoint_Normal _ k n Hld Hk) as [L HL].
    exists (str L). now rewrite HL. }
  assert (Hm : forall b, Hexbin.points b <> [] -> exists v,
               maxSpecies Point.species (Hexbin.points b) = Normal v).
  { intros b Hb. exists undefined. now apply maxSpecies_points. }
  assert (Hall : Forall (fun _ : Point.t => True) hexPoints)
    by (apply Forall_forall; intros; exact I).
  assert (Hocc : Forall (fun b => Hexbin.points b <> []) (bins data k))
    by apply bins_nonempty.
  revert Hall Hocc. generalize hexPoints, (bins data k). intros centers bs Hall Hocc.
  match goal with
  | |- context [@attrFill ?A ?t ?v [] centers] =>
      destruct (attrFill_Normal A t v _ centers Hall Hc []) as [Hr1 Hf1];
      destruct (@attrFill A t v [] centers) as [[decision domain] r1]
  end.
  cbn [fst snd] in Hr1, Hf1. subst r1.
  match goal with
  | |- context [@attrFill ?A ?t ?v domain bs] =>
      destruct (attrFill_Normal A t v _ bs Hocc Hm domain) as [Hr2 Hf2];
      destruct (@attrFill A t v domain bs) as [[density domain2] r2]
  end.
  cbn [fst snd] in Hr2, Hf2. subst r2.
  cbn [fst snd caption decisionLayer densityLayer].
  split; [reflexivity|]. split; [reflexivity|]. split.
  - eapply Forall2_impl; [|exact Hf1]. cbv beta.
    intros c p (_ & Ht & v & dom & Hv & Hfill).
    split; [assumption|].
    destruct (classifyPoint (limitedData data k) k c) as [L|e]; [|discriminate].
    cbn [fmap bind] in Hv. injection Hv as <-. now exists L, dom.
  - eapply Forall2_impl; [|exact Hf2]. cbv beta.
    intros b p (Hb & Ht & v & dom & Hv & Hfill).
    split; [assumption|]. split; [assumption|].
    rewrite (maxSpecies_points Hb) in Hv. injection Hv as <-. now exists dom.
Qed.

Lemma render_density (data : list Penguin.t) (k : Z) :
  densityLayer (fst (render data k)) = []
  \/ map transform (densityLayer (fst (render data k)))
     = map (fun b => (Some (Hexbin.x b), Some (Hexbin.y b))) (bins data k).
Proof.
  unfold render. cbv zeta. generalize hexPoints, (bins data k). intros centers bs.
  match goal with
  | |- context [@attrFill ?A ?t ?v [] centers] =>
      destruct (@attrFill A t v [] centers) as [[decision domain] [[]|e]]
  end; [|now left].
  match goal with
  | |- context [@attrFill ?A ?t ?v domain bs] =>
      pose proof (attrFill_transform A t v bs domain) as Ht;
      destruct (@attrFill A t v domain bs) as [[density domain2] [[]|e]]
  end; right; exact Ht.
Qed.

(** With [k = 0] and data loaded the guard does not apply: the element is
    emptied, the hexagons are appended, and the first [classifyPoint]
    throws. *)
Lemma drawVisualization_zero_k :
  let r := drawVisualization (mkApp [adelie1] (Some (mkSvg [] [] (Some 5%Z)))) 0 in
  snd r = Throw (TypeError "Reduce of empty array with no initial value")
  /\ option_map caption (svgRef (fst r)) = Some None
  /\ option_map (fun s => length (decisionLayer s)) (svgRef (fst r)) = Some 1672.
Proof. vm_compute. repeat split. Qed.

(** * The claims about the drawing *)

(** C3, as stated, fails: over an empty point set [classifyPoint] does not
    signal InsufficientData; what is thrown is the [TypeError] of
    [reduce]. *)
Lemma classifyPoint_no_InsufficientData :
  ~ signalsInsufficientData 1 query.
Proof. unfold signalsInsufficientData. vm_compute. discriminate. Qed.

(** C3 (amended): for every [k], [classifyPoint] over an empty point set
    returns no label, default or other: the [reduce] of the empty tally
    throws a [TypeError]; and [drawVisualization], when no data is loaded,
    returns at its guard, before any classification, and leaves the
    component and its drawing as they were. *)
Theorem empty_point_set (k : Z) (q : Point.t) (prior : option Svg) :
  classifyPoint [] k q = Throw (TypeError "Reduce of empty array with no initial value")
  /\ drawVisualization (mkApp [] prior) k = (mkApp [] prior, Normal tt).
Proof.
  split; [|reflexivity].
  unfold classifyPoint, nearestNeighbors, sortedDistances. simpl.
  rewrite slice0_nil. reflexivity.
Qed.

(** C4, as stated, fails: a record with [NaN] measurements gets a distance
    like any other, stays among the neighbours and votes; here the two
    malformed records outvote the only well-formed one. *)
Lemma malformed_points_are_searched :
  ~ searchExcludesMalformed [broken1; broken2; gentoo1] query
  /\ classifyPoint [broken1; broken2; gentoo1] 3 query = Normal "C"%string
  /\ classifyPoint (filter wellFormed [broken1; broken2; gentoo1]) 3 query
     = Normal "B"%string.
Proof.
  split; [|split; vm_compute; reflexivity].
  unfold searchExcludesMalformed. intros H.
  apply (f_equal (@length _)) in H. vm_compute in H. discriminate H.
Qed.

(** C4 (amended): points with a [NaN] x or y are excluded from the
    hexagonal binning only (d3-hexbin skips a point whose pixel coordinate
    is [NaN], and the linear scales send [NaN] to [undefined]).  The
    neighbour search keeps them: [classifyPoint] computes a distance for
    every record of the truncated data, and for [k >= 1] every record is
    among the neighbours that vote. *)
Theorem malformed_points_only_leave_the_bins
        (data : list Penguin.t) (k : Z) (q : Point.t) :
  (1 <= k)%Z ->
  let ld := limitedData data k in
  labels (distances ld q) = map Penguin.species ld
  /\ Permutation (labels (nearestNeighbors ld k q)) (map Penguin.species ld)
  /\ Forall (fun b => Forall validPoint (Hexbin.points b)) (bins data k).
Proof.
  intros Hk ld. split; [apply labels_distances|]. split.
  - apply (neighbours_truncated_aux data k q Hk).
  - eapply Forall_impl; [|apply bins_occupied].
    intros b [_ Hb]. eapply Forall_impl; [|exact Hb]. now intros p [_ Hp].
Qed.

Lemma malformed_points_only_leave_the_bins_witness :
  (1 <= 3)%Z
  /\ (let ld := limitedData [broken1; broken2; gentoo1] 3 in
      labels (distances ld query) = map Penguin.species ld
      /\ Permutation (labels (nearestNeighbors ld 3 query)) (map Penguin.species ld)
      /\ Forall (fun b => Forall validPoint (Hexbin.points b))
                (bins [broken1; broken2; gentoo1] 3)).
Proof.
  split; [lia|].
  apply (malformed_points_only_leave_the_bins [broken1; broken2; gentoo1] 3 query). lia.
Defined.

(** C10: the density layer is joined to [bins], and d3-hexbin creates a
    bin only when a point falls into its cell: every bin starts with a
    point of the input that lies in the bin's cell (so no bin is empty),
    holds input points only, and the density layer has its hexagons at the
    bins and nowhere else (or none at all, when the decision layer
    threw). *)
Theorem density_layer_only_occupied_cells
        (d : Penguin.t) (ds : list Penguin.t) (prior : Svg) (k : Z) :
  Forall (fun b =>
            Hexbin.points b <> []
            /\ (exists p0 rest,
                   Hexbin.points b = p0 :: rest
                   /\ Hexbin.cell 10 (Scale.toNumber (xScale (d :: ds) (fst p0)))
                                     (Scale.toNumber (yScale (d :: ds) (snd p0)))
                      = (Hexbin.pi b, Hexbin.pj b))
            /\ Forall (fun p => In p (points (d :: ds) k)) (Hexbin.points b))
         (bins (d :: ds) k)
  /\ exists svg,
      svgRef (fst (drawVisualization (mkApp (d :: ds) (Some prior)) k)) = Some svg
      /\ (densityLayer svg = []
          \/ map transform (densityLayer svg)
             = map (fun b => (Some (Hexbin.x b), Some (Hexbin.y b))) (bins (d :: ds) k)).
Proof.
  split.
  - eapply Forall_impl; [|apply bins_occupied].
    intros b [Hfirst Hb]. split; [|split; [exact Hfirst|]].
    + destruct Hfirst as (p0 & rest & Hpts & _). rewrite Hpts. discriminate.
    + eapply Forall_impl; [|exact Hb]. now intros p [Hp _].
  - rewrite drawVisualization_mounted. cbn [fst svgRef].
    eexists. split; [reflexivity|]. apply render_density.
Qed.

(** The scenarios of the specification. *)
Example scenario_k1 :
  classifyPoint [adelie1; adelie2; gentoo1] 1 query = Normal "A"%string.
Proof. vm_compute. reflexivity. Qed.

Example scenario_k3 :
  classifyPoint [adelie1; adelie2; gentoo1] 3 query = Normal "A"%string.
Proof. vm_compute. reflexivity. Qed.

(** * Further properties of the classifier *)

Section SortOrder.
Variable A : Type.
Variable comparefn : A -> A -> float.

Lemma insert_sorted (x : A) (l : list A) :
  consistentOn comparefn (x :: l) ->
  StronglySorted (notAfter comparefn) l ->
  StronglySorted (notAfter comparefn) (JS.insert comparefn x l).
Proof.
  intros [Htot Htrans] Hs. induction Hs as [|y ys Hys IH Hy]; simpl.
  - repeat constructor.
  - destruct (0 <? comparefn x y)%float eqn:E.
    + constructor.
      * apply IH.
        -- intros a b Ha Hb. apply Htot; simpl in *; tauto.
        -- intros a b c Ha Hb Hc. apply Htrans; simpl in *; tauto.
      * apply (Permutation_Forall (Permutation_sym (insert_Permutation comparefn x ys))).
        constructor; [|assumption].
        destruct (Htot x y) as [H|H]; simpl; auto.
        unfold notAfter in H. congruence.
    + constructor; [now constructor|].
      constructor; [exact E|].
      rewrite Forall_forall in *. intros z Hz.
      apply (Htrans x y z); simpl; auto.
Qed.

Lemma consistentOn_tail (x : A) (l : list A) :
  consistentOn comparefn (x :: l) -> consistentOn comparefn l.
Proof.
  intros [Htot Htrans]. split.
  - intros a b Ha Hb. apply Htot; now right.
  - intros a b c Ha Hb Hc. apply Htrans; now right.
Qed.

Lemma consistentOn_Permutation (l l' : list A) :
  Permutation l l' -> consistentOn comparefn l -> consistentOn comparefn l'.
Proof.
  intros Hp [Htot Htrans]. apply Permutation_sym in Hp. split.
  - intros a b Ha Hb. apply Htot; eapply Permutation_in; eauto.
  - intros a b c Ha Hb Hc. apply Htrans; eapply Permutation_in; eauto.
Qed.

Lemma sort_StronglySorted (l : list A) :
  consistentOn comparefn l ->
  StronglySorted (notAfter comparefn) (JS.sort comparefn l).
Proof.
  induction l as [|x l IH]; intros Hc; simpl.
  - constructor.
  - apply insert_sorted.
    + apply (consistentOn_Permutation (x :: l)); [|assumption].
      apply perm_skip, Permutation_sym, sort_Permutation.
    + apply IH. now apply consistentOn_tail in Hc.
Qed.

Lemma sort_of_sorted (l : list A) :
  StronglySorted (notAfter comparefn) l -> JS.sort comparefn l = l.
Proof.
  induction 1 as [|x l Hl IH Hx]; simpl; [reflexivity|].
  rewrite IH. destruct l as [|y ys]; [reflexivity|]. simpl.
  inversion Hx as [|? ? Hxy _]; subst. unfold notAfter in Hxy. now rewrite Hxy.
Qed.

Lemma StronglySorted_app_pairs (R : A -> A -> Prop) (l1 l2 : list A) :
  StronglySorted R (l1 ++ l2) ->
  forall a b, In a l1 -> In b l2 -> R a b.
Proof.
  induction l1 as [|x l1 IH]; simpl; intros Hs a b Ha Hb; [destruct Ha|].
  inversion Hs as [|? ? Hs' Hx]; subst. destruct Ha as [<-|Ha].
  - rewrite Forall_forall in Hx. apply Hx, in_or_app. now right.
  - now apply IH.
Qed.
End SortOrder.

(** X1: [arr.sort(comparefn)] with a comparator that is consistent on the
    elements of the array returns them in order: no element is followed,
    anywhere behind it, by one the comparator wants before it. *)
Theorem sort_in_order (A : Type) (comparefn : A -> A -> float) (arr : list A) :
  consistentOn comparefn arr ->
  Permutation (JS.sort comparefn arr) arr
  /\ StronglySorted (notAfter comparefn) (JS.sort comparefn arr).
Proof.
  intros Hc. split; [apply sort_Permutation | now apply sort_StronglySorted].
Qed.

Ltac on_elements :=
  repeat match goal with
         | H : In _ _ |- _ => simpl in H
         | H : _ \/ _ |- _ => destruct H
         | H : False |- _ => destruct H
         end;
  subst; unfold notAfter in *.

Lemma three_numbers_consistent :
  consistentOn (fun a b : float => (a - b)%float) [3; 1; 2]%float.
Proof.
  split.
  - intros a b Ha Hb. on_elements; vm_compute; auto.
  - intros a b c Ha Hb Hc Hab Hbc. on_elements;
      vm_compute in Hab; vm_compute in Hbc; vm_compute; congruence.
Qed.

Lemma sort_in_order_witness :
  consistentOn (fun a b : float => (a - b)%float) [3; 1; 2]%float
  /\ Permutation (JS.sort (fun a b : float => (a - b)%float) [3; 1; 2]%float)
                 [3; 1; 2]%float
  /\ StronglySorted (notAfter (fun a b : float => (a - b)%float))
                    (JS.sort (fun a b : float => (a - b)%float) [3; 1; 2]%float).
Proof.
  split; [exact three_numbers_consistent|].
  apply (sort_in_order float (fun a b : float => (a - b)%float) [3; 1; 2]%float).
  exact three_numbers_consistent.
Defined.

Section SortStable.
Variable A : Type.
Variable comparefn : A -> A -> float.

Lemma tiedWith_true (a b : A) :
  tiedWith comparefn a b = true <-> notAfter comparefn a b /\ notAfter comparefn b a.
Proof.
  unfold tiedWith, notAfter. rewrite andb_true_iff, !negb_true_iff. reflexivity.
Qed.

(** Putting [a] into [s] moves it past elements that compare greater
    only, never past one that compares equal to it. *)
Lemma insert_stable (U : list A) (a x : A) (s : list A) :
  consistentOn comparefn U ->
  In x U -> In a U -> incl s U ->
  filter (tiedWith comparefn x) (JS.insert comparefn a s)
  = filter (tiedWith comparefn x) (a :: s).
Proof.
  intros [Htot Htrans] Hx Ha. induction s as [|y ys IH]; intros Hs.
  - reflexivity.
  - assert (Hy : In y U) by (apply Hs; now left).
    assert (Hys : incl ys U) by (intros z Hz; apply Hs; now right).
    cbn [JS.insert]. destruct (0 <? comparefn a y)%float eqn:E; [|reflexivity].
    cbn [filter]. rewrite (IH Hys). cbn [filter].
    destruct (tiedWith comparefn x a) eqn:Ea, (tiedWith comparefn x y) eqn:Ey;
      try reflexivity.
    apply tiedWith_true in Ea, Ey. destruct Ea as [_ Hax], Ey as [Hxy _].
    pose proof (Htrans a x y Ha Hx Hy Hax Hxy) as Hay.
    unfold notAfter in Hay. congruence.
Qed.

Lemma sort_stable (U : list A) (x : A) (l : list A) :
  consistentOn comparefn U ->
  In x U -> incl l U ->
  filter (tiedWith comparefn x) (JS.sort comparefn l)
  = filter (tiedWith comparefn x) l.
Proof.
  intros Hc Hx. induction l as [|a l IH]; intros Hl; [reflexivity|].
  assert (Ha : In a U) by (apply Hl; now left).
  assert (Hl' : incl l U) by (intros z Hz; apply Hl; now right).
  cbn [JS.sort fold_right]. fold (JS.sort comparefn l).
  rewrite (insert_stable U a x (JS.sort comparefn l) Hc Hx Ha).
  - cbn [filter]. now rewrite (IH Hl').
  - intros z Hz. apply Hl'.
    eapply Permutation_in; [apply sort_Permutation | exact Hz].
Qed.

(** A list has one rearrangement that is in order and stable. *)
Lemma stable_sorted_unique (l1 l2 : list A) :
  Permutation l1 l2 ->
  consistentOn comparefn l1 ->
  StronglySorted (notAfter comparefn) l1 ->
  StronglySorted (notAfter comparefn) l2 ->
  (forall x, In x l1 ->
             filter (tiedWith comparefn x) l1 = filter (tiedWith comparefn x) l2) ->
  l1 = l2.
Proof.
  revert l2. induction l1 as [|a l1 IH]; intros l2 Hp Hc Hs1 Hs2 Hf.
  - now apply Permutation_nil in Hp.
  - destruct l2 as [|b l2]; [apply Permutation_sym, Permutation_nil in Hp; discriminate|].
    inversion Hs1 as [|? ? Hs1' Ha]; subst.
    inversion Hs2 as [|? ? Hs2' Hb]; subst.
    rewrite Forall_forall in Ha, Hb.
    pose proof Hc as [Htot _].
    assert (Haa : notAfter comparefn a a)
      by (destruct (Htot a a) as [H|H]; simpl; auto).
    assert (Hab : tiedWith comparefn a b = true).
    { apply tiedWith_true. split.
      - assert (Hin : In b (a :: l1))
          by (eapply Permutation_in; [apply Permutation_sym, Hp | now left]).
        destruct Hin as [<-|Hin]; [assumption | now apply Ha].
      - assert (Hin : In a (b :: l2))
          by (eapply Permutation_in; [apply Hp | now left]).
        destruct Hin as [->|Hin]; [assumption | now apply Hb]. }
    assert (Heq : a = b).
    { specialize (Hf a (or_introl eq_refl)). cbn [filter] in Hf.
      rewrite Hab, (proj2 (tiedWith_true a a) (conj Haa Haa)) in Hf.
      now injection Hf. }
    subst b. f_equal. apply IH.
    + now apply Permutation_cons_inv in Hp.
    + now apply consistentOn_tail in Hc.
    + assumption.
    + assumption.
    + intros x Hx. specialize (Hf x (or_intror Hx)). cbn [filter] in Hf.
      destruct (tiedWith comparefn x a); [now injection Hf | assumption].
Qed.
End SortStable.

(** X2: [sort] with a comparator that is consistent on the elements of
    the array is stable: for every element, the elements that compare
    equal to it stand in the result in the order they had in the array. *)
Theorem sort_is_stable (A : Type) (comparefn : A -> A -> float) (arr : list A) :
  consistentOn comparefn arr ->
  forall x, In x arr ->
            filter (tiedWith comparefn x) (JS.sort comparefn arr)
            = filter (tiedWith comparefn x) arr.
Proof.
  intros Hc x Hx. apply (sort_stable A comparefn arr x arr Hc Hx).
  intros z Hz. exact Hz.
Qed.

Lemma tied_pairs_consistent :
  consistentOn (fun a b : float * float => (fst a - fst b)%float)
               [(2, 0); (1, 1); (2, 2); (1, 3)]%float.
Proof.
  split.
  - intros a b Ha Hb. on_elements; vm_compute; auto.
  - intros a b c Ha Hb Hc Hab Hbc. on_elements;
      vm_compute in Hab; vm_compute in Hbc; vm_compute; congruence.
Qed.

Lemma sort_is_stable_witness :
  consistentOn (fun a b : float * float => (fst a - fst b)%float)
               [(2, 0); (1, 1); (2, 2); (1, 3)]%float
  /\ forall x, In x [(2, 0); (1, 1); (2, 2); (1, 3)]%float ->
               filter (tiedWith (fun a b : float * float => (fst a - fst b)%float) x)
                      (JS.sort (fun a b : float * float => (fst a - fst b)%float)
                               [(2, 0); (1, 1); (2, 2); (1, 3)]%float)
               = filter (tiedWith (fun a b : float * float => (fst a - fst b)%float) x)
                        [(2, 0); (1, 1); (2, 2); (1, 3)]%float.
Proof.
  split; [exact tied_pairs_consistent|].
  apply (sort_is_stable (float * float)
                        (fun a b : float * float => (fst a - fst b)%float)
                        [(2, 0); (1, 1); (2, 2); (1, 3)]%float).
  exact tied_pairs_consistent.
Defined.

Lemma slice0_firstn {A : Type} (l : list A) (k : Z) :
  exists n, slice0 l k = firstn n l.
Proof. unfold slice0. eauto. Qed.

(** X3: when the comparator is consistent on the distances (no [NaN]
    among them, say), [classifyPoint] votes over the nearest records: the
    sorted list splits into the neighbours that vote and the rest, and the
    comparator puts no neighbour that votes after one that does not. *)
Theorem nearestNeighbors_are_nearest
        (limitedData : list Penguin.t) (currentK : Z) (point : Point.t) :
  consistentOn byDistance (distances limitedData point) ->
  exists dropped,
    sortedDistances limitedData point
    = nearestNeighbors limitedData currentK point ++ dropped
    /\ forall n m,
        In n (nearestNeighbors limitedData currentK point) ->
        In m dropped ->
        notAfter byDistance n m.
Proof.
  intros Hc. unfold nearestNeighbors.
  destruct (slice0_firstn (sortedDistances limitedData point) currentK) as [n Hn].
  rewrite Hn. exists (skipn n (sortedDistances limitedData point)).
  split; [now rewrite firstn_skipn|].
  apply StronglySorted_app_pairs. rewrite firstn_skipn.
  now apply sort_StronglySorted.
Qed.

Lemma three_penguins_consistent :
  consistentOn byDistance (distances [gentoo1; adelie1; adelie2] query).
Proof.
  split.
  - intros a b Ha Hb. on_elements; vm_compute; auto.
  - intros a b c Ha Hb Hc Hab Hbc. on_elements;
      vm_compute in Hab; vm_compute in Hbc; vm_compute; congruence.
Qed.

Lemma nearestNeighbors_are_nearest_witness :
  consistentOn byDistance (distances [gentoo1; adelie1; adelie2] query)
  /\ exists dropped,
      sortedDistances [gentoo1; adelie1; adelie2] query
      = nearestNeighbors [gentoo1; adelie1; adelie2] 2 query ++ dropped
      /\ forall n m,
          In n (nearestNeighbors [gentoo1; adelie1; adelie2] 2 query) ->
          In m dropped ->
          notAfter byDistance n m.
Proof.
  split; [exact three_penguins_consistent|].
  apply (nearestNeighbors_are_nearest [gentoo1; adelie1; adelie2] 2 query).
  exact three_penguins_consistent.
Defined.

(** X4: for [k >= 0], [classifyPoint] votes over exactly [min(k, n)]
    neighbours, [n] being the number of records it is given. *)
Theorem nearestNeighbors_count
        (limitedData : list Penguin.t) (currentK : Z) (point : Point.t) :
  (0 <= currentK)%Z ->
  Z.of_nat (length (nearestNeighbors limitedData currentK point))
  = Z.min currentK (Z.of_nat (length limitedData)).
Proof.
  intros Hk. unfold nearestNeighbors, slice0.
  destruct (Z.ltb_spec currentK 0) as [|_]; [lia|].
  rewrite length_firstn, sortedDistances_length. lia.
Qed.

Lemma nearestNeighbors_count_witness :
  (0 <= 2)%Z
  /\ Z.of_nat (length (nearestNeighbors [gentoo1; adelie1; adelie2] 2 query))
     = Z.min 2 (Z.of_nat (length [gentoo1; adelie1; adelie2])).
Proof.
  split; [lia|].
  apply (nearestNeighbors_count [gentoo1; adelie1; adelie2] 2 query). lia.
Defined.

Lemma countPush_sum (entries : list (string * nat)) (s : string) :
  list_sum (map snd (countPush String.eqb entries s))
  = S (list_sum (map snd entries)).
Proof.
  induction entries as [|[k' n] rest IH]; simpl; [reflexivity|].
  destruct (String.eqb k' s); simpl; [reflexivity|]. rewrite IH. lia.
Qed.

Lemma tally_sum (nn : list Neighbor.t) :
  list_sum (map snd (tally nn)) = length nn.
Proof.
  induction nn as [|n nn IH] using rev_ind; [reflexivity|].
  unfold tally in *. rewrite rollup_snoc, countPush_sum, IH, length_app. simpl. lia.
Qed.

(** X5: the tally of [d3.rollup] lists every species of the neighbours
    once, each with at least one vote, and the votes add up to the number
    of neighbours. *)
Theorem tally_accounts_for_every_neighbour (nearestNeighbors : list Neighbor.t) :
  NoDup (map fst (tally nearestNeighbors))
  /\ (forall s, In s (map fst (tally nearestNeighbors)) <-> In s (labels nearestNeighbors))
  /\ Forall (fun entry => 1 <= snd entry) (tally nearestNeighbors)
  /\ list_sum (map snd (tally nearestNeighbors)) = length nearestNeighbors.
Proof.
  assert (Hkeys : map fst (tally nearestNeighbors)
                  = firsts String.eqb (labels nearestNeighbors)).
  { rewrite tally_char, map_map. simpl. apply map_id. }
  split; [|split; [|split]].
  - rewrite Hkeys. apply firsts_NoDup, String.eqb_eq.
  - intros s. rewrite Hkeys. apply firsts_In, String.eqb_eq.
  - rewrite tally_char. apply Forall_forall. intros entry He.
    apply in_map_iff in He. destruct He as (s & <- & Hs). simpl.
    apply -> (firsts_In String.eqb String.eqb_eq) in Hs.
    apply (occurrences_In String.eqb String.eqb_eq) in Hs. lia.
  - apply tally_sum.
Qed.

(** X6: looking a species up in the tally gives its number of votes, and
    nothing ([undefined]) for a species none of the neighbours has. *)
Theorem tally_lookup (nearestNeighbors : list Neighbor.t) (s : string) :
  Map_get String.eqb (tally nearestNeighbors) s
  = if in_dec string_dec s (labels nearestNeighbors)
    then Some (occurrences String.eqb s (labels nearestNeighbors))
    else None.
Proof.
  unfold tally. rewrite (Map_get_rollup String.eqb String.eqb_eq).
  fold (labels nearestNeighbors).
  destruct (in_dec string_dec s (labels nearestNeighbors)) as [Hin|Hout].
  - apply (occurrences_In String.eqb String.eqb_eq) in Hin.
    destruct (Nat.eqb_spec (occurrences String.eqb s (labels nearestNeighbors)) 0);
      [lia | reflexivity].
  - now rewrite (occurrences_notin String.eqb String.eqb_eq s _ Hout).
Qed.

(** X7: with [k = 1] and at least one record, [classifyPoint] returns the
    species of the first element of the sorted distances. *)
Theorem classifyPoint_one_neighbour (limitedData : list Penguin.t) (point : Point.t) :
  limitedData <> [] ->
  exists n rest,
    sortedDistances limitedData point = n :: rest
    /\ classifyPoint limitedData 1 point = Normal (Neighbor.species n).
Proof.
  intros Hld.
  destruct (sortedDistances limitedData point) as [|n rest] eqn:E.
  - apply (f_equal (@length _)) in E. rewrite sortedDistances_length in E.
    destruct limitedData; [congruence | discriminate].
  - exists n, rest. split; [reflexivity|].
    unfold classifyPoint, nearestNeighbors. rewrite E.
    unfold slice0. cbn [Z.ltb Z.compare].
    replace (Z.to_nat (Z.min 1 (Z.of_nat (length (n :: rest))))) with 1%nat
      by (simpl length; lia).
    reflexivity.
Qed.

Lemma classifyPoint_one_neighbour_witness :
  [gentoo1; adelie1; adelie2] <> []
  /\ exists n rest,
      sortedDistances [gentoo1; adelie1; adelie2] query = n :: rest
      /\ classifyPoint [gentoo1; adelie1; adelie2] 1 query = Normal (Neighbor.species n).
Proof.
  split; [discriminate|].
  apply (classifyPoint_one_neighbour [gentoo1; adelie1; adelie2] query). discriminate.
Defined.

Lemma vote_plurality (nn : list Neighbor.t) (s : string) :
  plurality (labels nn) s -> vote nn = Normal s.
Proof.
  intros [Hin Hmore].
  assert (Hnn : nn <> []) by (intros ->; destruct Hin).
  destruct (vote_nonempty Hnn) as [L HL]. rewrite HL. f_equal.
  destruct (string_dec L s) as [|Hne]; [assumption|].
  apply vote_spec in HL. destruct HL as (_ & Hmax & _).
  specialize (Hmax s). specialize (Hmore L Hne). lia.
Qed.

(** X8: a species with strictly more votes among the neighbours than any
    other label is the one [classifyPoint] returns. *)
Theorem classifyPoint_plurality
        (limitedData : list Penguin.t) (currentK : Z) (point : Point.t) (s : string) :
  plurality (labels (nearestNeighbors limitedData currentK point)) s ->
  classifyPoint limitedData currentK point = Normal s.
Proof. intros H. unfold classifyPoint. now apply vote_plurality. Qed.

Lemma three_penguins_plurality :
  plurality (labels (nearestNeighbors [gentoo1; adelie1; adelie2] 3 query)) "A"%string.
Proof.
  assert (E : labels (nearestNeighbors [gentoo1; adelie1; adelie2] 3 query)
              = ["A"; "A"; "B"]%string) by (vm_compute; reflexivity).
  rewrite E. split; [simpl; auto|].
  intros M HM. cbn [occurrences]. rewrite String.eqb_refl.
  destruct (String.eqb "A" M) eqn:EA; [apply String.eqb_eq in EA; congruence|].
  destruct (String.eqb "B" M), (String.eqb "B" "A"); simpl; lia.
Qed.

Lemma classifyPoint_plurality_witness :
  plurality (labels (nearestNeighbors [gentoo1; adelie1; adelie2] 3 query)) "A"%string
  /\ classifyPoint [gentoo1; adelie1; adelie2] 3 query = Normal "A"%string.
Proof.
  split; [exact three_penguins_plurality|].
  apply (classifyPoint_plurality [gentoo1; adelie1; adelie2] 3 query "A"%string).
  exact three_penguins_plurality.
Defined.

(** * Further properties of the binning *)

Section HexbinPartition.
Variable xOf yOf : Point.t -> option float.
Variable r : float.

Lemma push_concat (bins : list Hexbin.Bin) (i j : float) (p : Point.t) :
  Permutation (concat (map Hexbin.points (Hexbin.push r bins i j p)))
              (p :: concat (map Hexbin.points bins)).
Proof.
  induction bins as [|b bins IH]; simpl.
  - apply Permutation_refl.
  - destruct ((Hexbin.pi b =? i)%float && (Hexbin.pj b =? j)%float); simpl.
    + rewrite <- app_assoc. simpl. apply Permutation_sym, Permutation_middle.
    + eapply perm_trans; [apply Permutation_app_head, IH|].
      apply Permutation_sym, Permutation_middle.
Qed.

Lemma hexbin_concat (pts : list Point.t) :
  Permutation (concat (map Hexbin.points (Hexbin.hexbin xOf yOf r pts)))
              (filter (onScreen xOf yOf) pts).
Proof.
  unfold Hexbin.hexbin.
  assert (G : forall acc,
             Permutation (concat (map Hexbin.points (fold_left (Hexbin.step xOf yOf r) pts acc)))
                         (concat (map Hexbin.points acc) ++ filter (onScreen xOf yOf) pts)).
  { induction pts as [|p pts IH]; intros acc; simpl.
    - now rewrite app_nil_r.
    - eapply perm_trans; [apply IH|].
      unfold Hexbin.step, onScreen.
      destruct (isNaN (Scale.toNumber (xOf p)) || isNaN (Scale.toNumber (yOf p))); simpl.
      + apply Permutation_refl.
      + destruct (Hexbin.cell r _ _) as [i j].
        eapply perm_trans; [apply Permutation_app_tail, push_concat|].
        simpl. apply Permutation_middle. }
  apply (G []).
Qed.

Lemma push_otherCell (bins : list Hexbin.Bin) (i j : float) (p : Point.t) :
  StronglySorted otherCell bins ->
  StronglySorted otherCell (Hexbin.push r bins i j p).
Proof.
  induction 1 as [|b bins Hs IH Hb]; simpl.
  - repeat constructor.
  - destruct ((Hexbin.pi b =? i)%float && (Hexbin.pj b =? j)%float) eqn:E.
    + constructor; assumption.
    + constructor; [assumption|].
      apply (push_Forall r (otherCell b)); [exact E | | assumption].
      intros b' Hb'. exact Hb'.
Qed.

Lemma hexbin_otherCell (pts : list Point.t) :
  StronglySorted otherCell (Hexbin.hexbin xOf yOf r pts).
Proof.
  unfold Hexbin.hexbin.
  assert (G : forall acc, StronglySorted otherCell acc ->
                          StronglySorted otherCell (fold_left (Hexbin.step xOf yOf r) pts acc)).
  { induction pts as [|p pts IH]; intros acc Hacc; simpl; [assumption|].
    apply IH. unfold Hexbin.step.
    destruct (isNaN (Scale.toNumber (xOf p)) || isNaN (Scale.toNumber (yOf p)));
      [assumption|].
    destruct (Hexbin.cell r _ _) as [i j]. now apply push_otherCell. }
  apply G. constructor.
Qed.
End HexbinPartition.

(** X9: every point of [points] whose pixel coordinates are numbers is in
    exactly one bin, and the bins hold nothing else: the bins, put end to
    end, are a rearrangement of those points. *)
Theorem bins_partition_the_points (data : list Penguin.t) (k : Z) :
  Permutation
    (concat (map Hexbin.points (bins data k)))
    (filter (onScreen (fun d => xScale data (fst d)) (fun d => yScale data (snd d)))
            (points data k)).
Proof. unfold bins, hexbinGenerator. apply hexbin_concat. Qed.

(** X10: no two bins are for the same cell: any two bins of
    [hexbinGenerator(points)] differ in [pi] or in [pj]. *)
Theorem bins_have_distinct_cells (data : list Penguin.t) (k : Z) :
  StronglySorted otherCell (bins data k).
Proof. unfold bins, hexbinGenerator. apply hexbin_otherCell. Qed.

(** * Further properties of the colour scale *)

Lemma indexOf_app (domain more : list JS.value) (d : JS.value) (i : nat) :
  Scale.indexOf domain d = Some i -> Scale.indexOf (domain ++ more) d = Some i.
Proof.
  revert i. induction domain as [|k' rest IH]; simpl; intros i; [discriminate|].
  destruct (value_eqb k' d); [trivial|].
  destruct (Scale.indexOf rest d) as [j|]; [|discriminate].
  intros [= <-]. now rewrite (IH j eq_refl).
Qed.

Lemma indexOf_snoc (domain : list JS.value) (d : JS.value) :
  Scale.indexOf domain d = None ->
  Scale.indexOf (domain ++ [d]) d = Some (length domain).
Proof.
  induction domain as [|k' rest IH]; simpl.
  - intros _. now rewrite (proj2 (value_eqb_eq d d) eq_refl).
  - destruct (value_eqb k' d); [discriminate|].
    destruct (Scale.indexOf rest d) as [j|]; [discriminate|].
    intros _. now rewrite IH.
Qed.

Lemma indexOf_In (domain : list JS.value) (d : JS.value) :
  In d domain -> exists i, Scale.indexOf domain d = Some i.
Proof.
  induction domain as [|k' rest IH]; simpl; [tauto|].
  intros [->|H].
  - rewrite (proj2 (value_eqb_eq d d) eq_refl). eauto.
  - destruct (value_eqb k' d); [eauto|].
    destruct (IH H) as [i ->]. simpl. eauto.
Qed.

Lemma scaleOrdinal_again (range : list string) (domain : list JS.value) (d : JS.value) :
  Scale.scaleOrdinal range (fst (Scale.scaleOrdinal range domain d)) d
  = Scale.scaleOrdinal range domain d.
Proof.
  unfold Scale.scaleOrdinal.
  destruct (Scale.indexOf domain d) as [i|] eqn:E; simpl.
  - now rewrite E.
  - now rewrite (indexOf_snoc domain d E).
Qed.

(** X11: the ordinal scale keeps what it has given: asking again for a
    key returns the same colour and leaves the domain as it is, and a key
    already in the domain keeps its colour when another key is asked
    for. *)
Theorem scaleOrdinal_keeps_colours
        (range : list string) (domain : list JS.value) (d : JS.value) :
  Scale.scaleOrdinal range (fst (Scale.scaleOrdinal range domain d)) d
  = Scale.scaleOrdinal range domain d
  /\ forall d', In d' domain ->
                snd (Scale.scaleOrdinal range (fst (Scale.scaleOrdinal range domain d)) d')
                = snd (Scale.scaleOrdinal range domain d').
Proof.
  split; [apply scaleOrdinal_again|].
  intros d' Hd'. destruct (indexOf_In domain d' Hd') as [i Hi].
  unfold Scale.scaleOrdinal at 2.
  destruct (Scale.indexOf domain d) as [j|]; simpl.
  - reflexivity.
  - unfold Scale.scaleOrdinal. now rewrite (indexOf_app domain [d] d' i Hi), Hi.
Qed.

(** * Further properties of the drawing *)

Section AttrFillConstant.
Variable A : Type.
Variable transformOf : A -> option float * option float.
Variable value : A -> completion JS.value.

(** When [value] returns the same key on every node, every node gets the
    colour the scale gives that key. *)
Lemma attrFill_constant (v : JS.value) (nodes : list A) :
  Forall (fun n => value n = Normal v) nodes ->
  forall domain,
    snd (attrFill transformOf value domain nodes) = Normal tt
    /\ Forall2 (fun n p => transform p = transformOf n
                           /\ fill p = Some (snd (color domain v)))
               nodes (fst (fst (attrFill transformOf value domain nodes))).
Proof.
  induction 1 as [|d rest Hd Hrest IH]; intros domain; simpl.
  - split; [reflexivity | constructor].
  - rewrite Hd. destruct (color domain v) as [domain' c] eqn:Ec.
    destruct (IH domain') as [Hr Hf].
    assert (Hc : snd (color domain' v) = c).
    { pose proof (scaleOrdinal_again Scale.schemeCategory10 domain v) as Hs.
      change (color (fst (color domain v)) v = color domain v) in Hs.
      rewrite Ec in Hs. cbn [fst] in Hs. now rewrite Hs. }
    rewrite Hc in Hf.
    destruct (attrFill transformOf value domain' rest) as [[paths domain''] r0].
    simpl in *. split; [assumption|].
    constructor; [now split | assumption].
Qed.

(** When [value] throws on the first node, no node gets a fill. *)
Lemma attrFill_Throw (e : exn) (d : A) (rest : list A) (domain : list JS.value) :
  value d = Throw e ->
  attrFill transformOf value domain (d :: rest)
  = (map (fun n => mkPath (transformOf n) None) (d :: rest), domain, Throw e).
Proof. intros H. simpl. now rewrite H. Qed.
End AttrFillConstant.

Lemma classifyPoint_nil (k : Z) (q : Point.t) :
  classifyPoint [] k q = Throw (TypeError "Reduce of empty array with no initial value").
Proof.
  unfold classifyPoint, nearestNeighbors, sortedDistances. simpl.
  rewrite slice0_nil. reflexivity.
Qed.

Lemma hexPoints_nonempty : hexPoints <> [].
Proof.
  intros E. apply (f_equal (@length _)) in E. vm_compute in E. discriminate E.
Qed.

Lemma plurality_Permutation (l l' : list string) (s : string) :
  Permutation l l' -> plurality l s -> plurality l' s.
Proof.
  intros Hp [Hin Hmore]. split.
  - eapply Permutation_in; eassumption.
  - intros M HM.
    rewrite <- !(occurrences_Permutation String.eqb _ Hp). now apply Hmore.
Qed.

(** The drawing when every centre is classified as [s]. *)
Lemma render_constant (data : list Penguin.t) (k : Z) (s : string) :
  (forall c, classifyPoint (limitedData data k) k c = Normal s) ->
  snd (render data k) = Normal tt
  /\ caption (fst (render data k)) = Some k
  /\ Forall2 (fun c p =>
                transform p = (xScale data (fst c), yScale data (snd c))
                /\ fill p = Some "#1f77b4"%string)
             hexPoints (decisionLayer (fst (render data k)))
  /\ exists colour,
      Forall2 (fun b p =>
                 transform p = (Some (Hexbin.x b), Some (Hexbin.y b))
                 /\ fill p = Some colour)
              (bins data k) (densityLayer (fst (render data k))).
Proof.
  intros Hs. unfold render. cbv zeta.
  assert (Hc : Forall (fun n : Point.t =>
                         fmap str (classifyPoint (limitedData data k) k n)
                         = Normal (str s)) hexPoints).
  { apply Forall_forall. intros n _. now rewrite Hs. }
  assert (Hm : Forall (fun b => maxSpecies Point.species (Hexbin.points b)
                                = Normal undefined) (bins data k)).
  { eapply Forall_impl; [|apply bins_nonempty].
    intros b Hb. now apply maxSpecies_points. }
  revert Hc Hm. generalize hexPoints, (bins data k). intros centers bs Hc Hm.
  match goal with
  | |- context [@attrFill ?A ?t ?v [] centers] =>
      destruct (attrFill_constant A t v (str s) centers Hc []) as [Hr1 Hf1];
      destruct (@attrFill A t v [] centers) as [[decision domain] r1]
  end.
  cbn [fst snd] in Hr1, Hf1. subst r1.
  match goal with
  | |- context [@attrFill ?A ?t ?v domain bs] =>
      destruct (attrFill_constant A t v undefined bs Hm domain) as [Hr2 Hf2];
      destruct (@attrFill A t v domain bs) as [[density domain2] r2]
  end.
  cbn [fst snd] in Hr2, Hf2. subst r2.
  cbn [fst snd caption decisionLayer densityLayer].
  split; [reflexivity|]. split; [reflexivity|]. split.
  - exact Hf1.
  - exists (snd (color domain undefined)). exact Hf2.
Qed.

(** The drawing when the truncated data is empty. *)
Lemma render_empty (data : list Penguin.t) (k : Z) :
  limitedData data k = [] ->
  render data k
  = (mkSvg (map (fun c => mkPath (xScale data (fst c), yScale data (snd c)) None) hexPoints)
           [] None,
     Throw (TypeError "Reduce of empty array with no initial value")).
Proof.
  intros Hld. unfold render. cbv zeta. rewrite Hld.
  pose proof hexPoints_nonempty as Hne. revert Hne.
  generalize hexPoints. intros [|c centers] Hne; [congruence|].
  rewrite (attrFill_Throw _ _ _ (TypeError "Reduce of empty array with no initial value")).
  - reflexivity.
  - now rewrite classifyPoint_nil.
Qed.

Lemma render_density_uniform (data : list Penguin.t) (k : Z) :
  limitedData data k <> [] ->
  (1 <= k)%Z ->
  snd (render data k) = Normal tt
  /\ caption (fst (render data k)) = Some k
  /\ exists colour,
      Forall2 (fun b p =>
                 transform p = (Some (Hexbin.x b), Some (Hexbin.y b))
                 /\ fill p = Some colour)
              (bins data k) (densityLayer (fst (render data k))).
Proof.
  intros Hld Hk. unfold render. cbv zeta.
  assert (Hc : forall n, True -> exists v,
               fmap str (classifyPoint (limitedData data k) k n) = Normal v).
  { intros n _. destruct (classifyPoint_Normal _ k n Hld Hk) as [L HL].
    exists (str L). now rewrite HL. }
  assert (Hall : Forall (fun _ : Point.t => True) hexPoints)
    by (apply Forall_forall; intros; exact I).
  assert (Hm : Forall (fun b => maxSpecies Point.species (Hexbin.points b)
                                = Normal undefined) (bins data k)).
  { eapply Forall_impl; [|apply bins_nonempty].
    intros b Hb. now apply maxSpecies_points. }
  revert Hall Hm. generalize hexPoints, (bins data k). intros centers bs Hall Hm.
  match goal with
  | |- context [@attrFill ?A ?t ?v [] centers] =>
      destruct (attrFill_Normal A t v _ centers Hall Hc []) as [Hr1 _];
      destruct (@attrFill A t v [] centers) as [[decision domain] r1]
  end.
  cbn [fst snd] in Hr1. subst r1.
  match goal with
  | |- context [@attrFill ?A ?t ?v domain bs] =>
      destruct (attrFill_constant A t v undefined bs Hm domain) as [Hr2 Hf2];
      destruct (@attrFill A t v domain bs) as [[density domain2] r2]
  end.
  cbn [fst snd] in Hr2, Hf2. subst r2.
  cbn [fst snd caption decisionLayer densityLayer].
  split; [reflexivity|]. split; [reflexivity|].
  exists (snd (color domain undefined)). exact Hf2.
Qed.

(** X12: when data is loaded and [k >= 1] the redraw completes, the
    caption shows [k], and the density layer has one hexagon per bin, at
    the bin's centre, all with one and the same fill: the elements of a
    bin are coordinate pairs, their [.species] is [undefined], and the
    colour does not depend on the species of the records that fell into
    the cell. *)
Theorem density_layer_one_colour (data : list Penguin.t) (prior : Svg) (k : Z) :
  data <> [] ->
  (1 <= k)%Z ->
  exists svg colour,
    drawVisualization (mkApp data (Some prior)) k = (mkApp data (Some svg), Normal tt)
    /\ caption svg = Some k
    /\ Forall2 (fun b p =>
                  transform p = (Some (Hexbin.x b), Some (Hexbin.y b))
                  /\ fill p = Some colour)
               (bins data k) (densityLayer svg).
Proof.
  intros Hd Hk.
  destruct (render_density_uniform data k (limitedData_nonempty data k Hd Hk) Hk)
    as (Hr & Hcap & colour & Hf).
  exists (fst (render data k)), colour. split; [|now split].
  destruct data as [|d ds]; [congruence|].
  rewrite drawVisualization_mounted. now rewrite Hr.
Qed.

Lemma density_layer_one_colour_witness :
  [adelie1; adelie2; gentoo1] <> []
  /\ (1 <= 3)%Z
  /\ exists svg colour,
      drawVisualization (mkApp [adelie1; adelie2; gentoo1] (Some blank)) 3
      = (mkApp [adelie1; adelie2; gentoo1] (Some svg), Normal tt)
      /\ caption svg = Some 3%Z
      /\ Forall2 (fun b p =>
                    transform p = (Some (Hexbin.x b), Some (Hexbin.y b))
                    /\ fill p = Some colour)
                 (bins [adelie1; adelie2; gentoo1] 3) (densityLayer svg).
Proof.
  split; [discriminate|]. split; [lia|].
  apply (density_layer_one_colour [adelie1; adelie2; gentoo1] blank 3);
    [discriminate | lia].
Defined.

(** X13: when one species has strictly more records than any other among
    the first [k] rows ([k >= 1]), every centre is classified as that
    species and the whole decision layer gets the first colour of the
    scheme: the drawing shows no boundary. *)
Theorem decision_layer_one_colour
        (data : list Penguin.t) (prior : Svg) (k : Z) (s : string) :
  (1 <= k)%Z ->
  plurality (map Penguin.species (limitedData data k)) s ->
  (forall c, classifyPoint (limitedData data k) k c = Normal s)
  /\ exists svg,
      drawVisualization (mkApp data (Some prior)) k = (mkApp data (Some svg), Normal tt)
      /\ Forall2 (fun c p =>
                    transform p = (xScale data (fst c), yScale data (snd c))
                    /\ fill p = Some "#1f77b4"%string)
                 hexPoints (decisionLayer svg).
Proof.
  intros Hk Hp.
  assert (Hs : forall c, classifyPoint (limitedData data k) k c = Normal s).
  { intros c. apply vote_plurality.
    apply (plurality_Permutation (map Penguin.species (limitedData data k)));
      [|assumption].
    apply Permutation_sym, neighbours_truncated_aux, Hk. }
  split; [exact Hs|].
  destruct (render_constant data k s Hs) as (Hr & _ & Hf & _).
  exists (fst (render data k)). split; [|exact Hf].
  destruct data as [|d ds].
  - destruct Hp as [Hin _]. unfold limitedData in Hin.
    rewrite slice0_nil in Hin. destruct Hin.
  - rewrite drawVisualization_mounted. now rewrite Hr.
Qed.

Lemma three_rows_plurality :
  plurality (map Penguin.species (limitedData [adelie1; adelie2; gentoo1] 3)) "A"%string.
Proof.
  assert (E : map Penguin.species (limitedData [adelie1; adelie2; gentoo1] 3)
              = ["A"; "A"; "B"]%string) by (vm_compute; reflexivity).
  rewrite E. split; [simpl; auto|].
  intros M HM. cbn [occurrences]. rewrite String.eqb_refl.
  destruct (String.eqb "A" M) eqn:EA; [apply String.eqb_eq in EA; congruence|].
  destruct (String.eqb "B" M), (String.eqb "B" "A"); simpl; lia.
Qed.

Lemma decision_layer_one_colour_witness :
  (1 <= 3)%Z
  /\ plurality (map Penguin.species (limitedData [adelie1; adelie2; gentoo1] 3)) "A"%string
  /\ (forall c, classifyPoint (limitedData [adelie1; adelie2; gentoo1] 3) 3 c
                = Normal "A"%string)
  /\ exists svg,
      drawVisualization (mkApp [adelie1; adelie2; gentoo1] (Some blank)) 3
      = (mkApp [adelie1; adelie2; gentoo1] (Some svg), Normal tt)
      /\ Forall2 (fun c p =>
                    transform p = (xScale [adelie1; adelie2; gentoo1] (fst c),
                                   yScale [adelie1; adelie2; gentoo1] (snd c))
                    /\ fill p = Some "#1f77b4"%string)
                 hexPoints (decisionLayer svg).
Proof.
  split; [lia|]. split; [exact three_rows_plurality|].
  apply (decision_layer_one_colour [adelie1; adelie2; gentoo1] blank 3 "A"%string);
    [lia | exact three_rows_plurality].
Defined.

(** X14: when data is loaded but the truncation leaves no record (as
    [k = 0] does), the guard does not apply: the element is emptied, the
    hexagons of the decision layer are appended without a fill, and the
    redraw ends with the [TypeError] of [reduce]; no density layer and no
    caption are drawn. *)
Theorem drawVisualization_empty_truncation
        (d : Penguin.t) (ds : list Penguin.t) (prior : Svg) (k : Z) :
  limitedData (d :: ds) k = [] ->
  drawVisualization (mkApp (d :: ds) (Some prior)) k
  = (mkApp (d :: ds)
           (Some (mkSvg (map (fun c => mkPath (xScale (d :: ds) (fst c),
                                               yScale (d :: ds) (snd c)) None)
                             hexPoints)
                        [] None)),
     Throw (TypeError "Reduce of empty array with no initial value")).
Proof.
  intros Hld. rewrite drawVisualization_mounted.
  now rewrite (render_empty (d :: ds) k Hld).
Qed.

Lemma drawVisualization_empty_truncation_witness :
  limitedData [adelie1; gentoo1] 0 = []
  /\ drawVisualization (mkApp [adelie1; gentoo1] (Some (mkSvg [] [] (Some 5%Z)))) 0
     = (mkApp [adelie1; gentoo1]
              (Some (mkSvg (map (fun c => mkPath (xScale [adelie1; gentoo1] (fst c),
                                                  yScale [adelie1; gentoo1] (snd c)) None)
                                hexPoints)
                           [] None)),
        Throw (TypeError "Reduce of empty array with no initial value")).
Proof.
  split; [reflexivity|].
  apply (drawVisualization_empty_truncation adelie1 [gentoo1] (mkSvg [] [] (Some 5%Z)) 0).
  reflexivity.
Defined.

(** * The animation and the controls *)

Lemma frames_spec (prevK : Z) (n : nat) :
  (prevK <= 100)%Z ->
  nextK (frames n prevK) = Z.min (prevK + Z.of_nat n) 100
  /\ requested (frames n prevK) = (prevK + Z.of_nat n <=? 100)%Z
  /\ stopped (frames n prevK) = negb (prevK + Z.of_nat n <=? 100)%Z.
Proof.
  intros Hk. induction n as [|n (Hn & Hr & Hs)].
  - simpl. rewrite Z.add_0_r.
    destruct (Z.leb_spec prevK 100); [|lia]. repeat split. lia.
  - cbn [frames]. rewrite Nat2Z.inj_succ.
    destruct (requested (frames n prevK)) eqn:Er.
    + symmetry in Hr. apply Z.leb_le in Hr.
      rewrite Hn. rewrite Z.min_l by lia. unfold animate.
      destruct (Z.ltb_spec (prevK + Z.of_nat n) 100); cbn [nextK requested stopped].
      * destruct (Z.leb_spec (prevK + Z.succ (Z.of_nat n)) 100); [|lia].
        repeat split. lia.
      * destruct (Z.leb_spec (prevK + Z.succ (Z.of_nat n)) 100); [lia|].
        repeat split. lia.
    + symmetry in Hr. apply Z.leb_gt in Hr.
      rewrite Hn, Er, Hs.
      destruct (Z.leb_spec (prevK + Z.of_nat n) 100); [lia|].
      destruct (Z.leb_spec (prevK + Z.succ (Z.of_nat n)) 100); [lia|].
      repeat split. lia.
Qed.

(** X15: the animation counts [k] up by one per frame and ends at 100:
    started at [prevK <= 100], after [n] frames [k] is
    [min(prevK + n, 100)]; a further frame is requested as long as
    [prevK + n <= 100], and the frame that finds [k = 100] requests none
    and stops the playing. *)
Theorem animation_counts_to_100 (prevK : Z) (n : nat) :
  (prevK <= 100)%Z ->
  nextK (frames n prevK) = Z.min (prevK + Z.of_nat n) 100
  /\ requested (frames n prevK) = (prevK + Z.of_nat n <=? 100)%Z
  /\ stopped (frames n prevK) = negb (prevK + Z.of_nat n <=? 100)%Z.
Proof. apply frames_spec. Qed.

Lemma animation_counts_to_100_witness :
  (1 <= 100)%Z
  /\ nextK (frames 100 1) = Z.min (1 + Z.of_nat 100) 100
  /\ requested (frames 100 1) = (1 + Z.of_nat 100 <=? 100)%Z
  /\ stopped (frames 100 1) = negb (1 + Z.of_nat 100 <=? 100)%Z.
Proof.
  split; [lia|]. apply (animation_counts_to_100 1 100). lia.
Defined.

Lemma redraw_inSync (app0 : App) (svg0 : Svg) (k' : Z) :
  (1 <= k' <= 100)%Z ->
  svgRef app0 = Some svg0 ->
  exists app',
    drawVisualization app0 k' = (app', Normal tt)
    /\ data app' = data app0
    /\ exists svg,
        svgRef app' = Some svg
        /\ (data app' <> [] ->
            svg = fst (render (data app') k') /\ caption svg = Some k').
Proof.
  intros Hk Hsvg. destruct app0 as [[|d ds] sv]; simpl in Hsvg; subst sv.
  - exists (mkApp [] (Some svg0)). split; [reflexivity|]. split; [reflexivity|].
    exists svg0. split; [reflexivity|]. simpl. congruence.
  - assert (Hld : limitedData (d :: ds) k' <> [])
      by (apply limitedData_nonempty; [discriminate | lia]).
    destruct (render_Normal (d :: ds) k' Hld (proj1 Hk)) as (Hr & Hcap & _).
    exists (mkApp (d :: ds) (Some (fst (render (d :: ds) k')))).
    split; [rewrite drawVisualization_mounted; now rewrite Hr|].
    split; [reflexivity|].
    exists (fst (render (d :: ds) k')). split; [reflexivity|].
    intros _. now split.
Qed.

Lemma step_inSync (c : Component.t) (e : event) :
  inSync c ->
  fromRangeInput e ->
  exists c', step c e = (c', Normal tt) /\ inSync c'.
Proof.
  destruct c as [app0 k0 playing frame0].
  intros (Hk & Hframe & svg0 & Hsvg & Hdraw) He.
  cbn [Component.app Component.k Component.isPlaying Component.frame]
    in Hk, Hframe, Hsvg, Hdraw.
  assert (Hredraw : forall k' playing' frame',
             (1 <= k' <= 100)%Z ->
             (frame' = true -> playing' = true) ->
             exists c',
               (let (app', r) := drawVisualization app0 k' in
                (Component.mk app' k' playing' frame', r)) = (c', Normal tt)
               /\ inSync c').
  { intros k' playing' frame' Hk' Hf'.
    destruct (redraw_inSync app0 svg0 k' Hk' Hsvg) as (app' & Hd & _ & svg & Hs & Hc).
    rewrite Hd. eexists. split; [reflexivity|].
    split; [exact Hk'|]. split; [exact Hf'|]. exists svg. now split. }
  assert (Hsame : forall playing' frame',
             (frame' = true -> playing' = true) ->
             inSync (Component.mk app0 k0 playing' frame')).
  { intros playing' frame' Hf'. split; [exact Hk|]. split; [exact Hf'|].
    exists svg0. now split. }
  assert (Hset : forall k' playing' frame',
             (1 <= k' <= 100)%Z ->
             (frame' = true -> playing' = true) ->
             exists c',
               (if negb (k' =? k0)%Z
                then let (app', r) := drawVisualization app0 k' in
                     (Component.mk app' k' playing' frame', r)
                else (Component.mk app0 k' playing' frame', Normal tt))
               = (c', Normal tt)
               /\ inSync c').
  { intros k' playing' frame' Hk' Hf'.
    destruct (Z.eqb_spec k' k0) as [->|Hne]; cbn [negb].
    - eexists. split; [reflexivity | now apply Hsame].
    - now apply Hredraw. }
  destruct e as [rows| | |[n|]]; unfold step, handle;
    cbn [Component.app Component.k Component.isPlaying Component.frame].
  - (* Loaded *)
    destruct (redraw_inSync (mkApp rows (svgRef app0)) svg0 k0 Hk Hsvg)
      as (app' & Hd & _ & svg & Hs & Hc).
    rewrite Hd. eexists. split; [reflexivity|].
    split; [exact Hk|]. split; [exact Hframe|]. exists svg. now split.
  - (* KeySpace *)
    destruct playing; cbn [negb Component.app Component.k Component.isPlaying Component.frame].
    + rewrite Z.eqb_refl. cbn [negb]. eexists. split; [reflexivity|].
      apply Hsame. discriminate.
    + apply Hset; [lia | reflexivity].
  - (* AnimationFrame *)
    destruct frame0; cbn [Component.app Component.k Component.isPlaying Component.frame].
    + unfold animate. destruct (Z.ltb_spec k0 100);
        cbn [stopped nextK requested Component.app Component.k
             Component.isPlaying Component.frame].
      * apply Hset; [lia | intros _; now apply Hframe].
      * rewrite Z.eqb_refl. cbn [negb]. eexists. split; [reflexivity|].
        apply Hsame. discriminate.
    + rewrite Z.eqb_refl. cbn [negb]. eexists. split; [reflexivity|].
      now apply Hsame.
  - (* SliderChange, a number *)
    cbn [fromRangeInput] in He. destruct (Z.leb_spec n 100);
      cbn [Component.app Component.k Component.isPlaying Component.frame].
    + apply Hset; [lia | exact Hframe].
    + rewrite Z.eqb_refl. cbn [negb]. eexists. split; [reflexivity|].
      now apply Hsame.
  - (* SliderChange, NaN *)
    rewrite Z.eqb_refl. cbn [negb]. eexists. split; [reflexivity|].
    now apply Hsame.
Qed.

Lemma run_inSync (events : list event) :
  Forall fromRangeInput events ->
  forall c, inSync c ->
            exists c', run c events = (c', Normal tt) /\ inSync c'.
Proof.
  induction 1 as [|e rest He Hrest IH]; intros c Hc; simpl.
  - now exists c.
  - destruct (step_inSync c e Hc He) as (c1 & Hs & Hc1).
    rewrite Hs. now apply IH.
Qed.

Lemma mounted_inSync : inSync mounted.
Proof.
  unfold inSync, mounted.
  cbn [Component.app Component.k Component.isPlaying Component.frame data svgRef].
  split; [lia|]. split; [discriminate|].
  exists blank. split; [reflexivity | congruence].
Qed.

(** X16: whatever the user and the timer do (data arriving, Space, an
    animation frame, the slider moved to any value the range input can
    hand over, a [NaN] included), no redraw throws, [k] stays between 1
    and 100, a pending frame always belongs to a running animation, and
    once data is loaded the element shows the drawing of the current data
    and [k], with [k] in its caption. *)
Theorem component_stays_in_sync (events : list event) :
  Forall fromRangeInput events ->
  exists c, run mounted events = (c, Normal tt) /\ inSync c.
Proof. intros H. exact (run_inSync events H mounted mounted_inSync). Qed.

Lemma component_stays_in_sync_witness :
  Forall fromRangeInput
         [Loaded [adelie1; adelie2; gentoo1]; SliderChange (Some 2%Z); KeySpace;
          AnimationFrame; SliderChange None; SliderChange (Some 250%Z); KeySpace]
  /\ exists c,
      run mounted
          [Loaded [adelie1; adelie2; gentoo1]; SliderChange (Some 2%Z); KeySpace;
           AnimationFrame; SliderChange None; SliderChange (Some 250%Z); KeySpace]
      = (c, Normal tt)
      /\ inSync c.
Proof.
  assert (H : Forall fromRangeInput
                     [Loaded [adelie1; adelie2; gentoo1]; SliderChange (Some 2%Z);
                      KeySpace; AnimationFrame; SliderChange None;
                      SliderChange (Some 250%Z); KeySpace]).
  { repeat constructor; simpl; lia. }
  split; [exact H|].
  exact (component_stays_in_sync _ H).
Defined.

(** * The colours of the decision layer *)

Lemma existsb_indexOf (domain : list JS.value) (d : JS.value) :
  existsb (fun k' => value_eqb k' d) domain
  = match Scale.indexOf domain d with Some _ => true | None => false end.
Proof.
  induction domain as [|k' rest IH]; simpl; [reflexivity|].
  destruct (value_eqb k' d); simpl; [reflexivity|].
  rewrite IH. now destruct (Scale.indexOf rest d).
Qed.

(** The domain of the scale grows as [firsts] does. *)
Lemma color_domain (domain : list JS.value) (d : JS.value) :
  fst (color domain d) = pushNew value_eqb domain d.
Proof.
  unfold color, Scale.scaleOrdinal, pushNew. rewrite existsb_indexOf.
  now destruct (Scale.indexOf domain d).
Qed.

Lemma fold_pushNew_extends (keys domain : list JS.value) :
  exists more, fold_left (pushNew value_eqb) keys domain = domain ++ more.
Proof.
  revert domain. induction keys as [|v keys IH]; intros domain; simpl.
  - exists []. now rewrite app_nil_r.
  - destruct (IH (pushNew value_eqb domain v)) as [more Hm]. rewrite Hm.
    unfold pushNew. destruct (existsb _ domain).
    + now exists more.
    + exists (v :: more). now rewrite <- app_assoc.
Qed.

Lemma color_in_larger_domain (domain more : list JS.value) (d : JS.value) :
  In d domain -> snd (color (domain ++ more) d) = snd (color domain d).
Proof.
  intros Hd. destruct (indexOf_In domain d Hd) as [i Hi].
  unfold color, Scale.scaleOrdinal.
  now rewrite (indexOf_app domain more d i Hi), Hi.
Qed.

Section AttrFillLabelled.
Variables A B : Type.
Variable transformOf : A -> option float * option float.
Variable value : A -> completion JS.value.
Variable key : B -> JS.value.

(** When [value] returns on every node, the pass completes, the scale
    ends with the distinct keys in order of first use for its domain, and
    every node has the colour this scale gives its key. *)
Lemma attrFill_labelled (nodes : list A) (Ls : list B) :
  Forall2 (fun n L => value n = Normal (key L)) nodes Ls ->
  forall domain,
    attrFill transformOf value domain nodes
    = (map (fun nL =>
              mkPath (transformOf (fst nL))
                     (Some (snd (color (fold_left (pushNew value_eqb) (map key Ls) domain)
                                       (key (snd nL))))))
           (combine nodes Ls),
       fold_left (pushNew value_eqb) (map key Ls) domain,
       Normal tt).
Proof.
  induction 1 as [|n L nodes Ls Hn Hrest IH]; intros domain.
  - reflexivity.
  - cbn [attrFill]. rewrite Hn.
    destruct (color domain (key L)) as [domain' c] eqn:Ec.
    assert (Hd : domain' = pushNew value_eqb domain (key L))
      by (rewrite <- color_domain, Ec; reflexivity).
    rewrite (IH domain'). cbn [map combine fold_left fst snd]. rewrite <- Hd.
    f_equal. f_equal. f_equal. f_equal.
    destruct (fold_pushNew_extends (map key Ls) domain') as [more Hm].
    rewrite Hm, color_in_larger_domain.
    + pose proof (scaleOrdinal_again Scale.schemeCategory10 domain (key L)) as Hs.
      change (color (fst (color domain (key L))) (key L) = color domain (key L)) in Hs.
      rewrite Ec in Hs. cbn [fst] in Hs. now rewrite Hs.
    + rewrite Hd. apply (pushNew_In value_eqb value_eqb_eq). now right.
Qed.

Lemma attrFill_ext_in (value' : A -> completion JS.value) (nodes : list A) :
  (forall n, In n nodes -> value n = value' n) ->
  forall domain,
    attrFill transformOf value domain nodes = attrFill transformOf value' domain nodes.
Proof.
  induction nodes as [|n nodes IH]; intros Hv domain; [reflexivity|].
  cbn [attrFill]. rewrite <- (Hv n (or_introl eq_refl)).
  destruct (value n) as [v|e]; [|reflexivity].
  destruct (color domain v) as [domain' c].
  rewrite (IH (fun m Hm => Hv m (or_intror Hm))). reflexivity.
Qed.
End AttrFillLabelled.

Lemma Forall2_choose {A B : Type} (P : A -> B -> Prop) (l : list A) :
  (forall a, exists b, P a b) -> exists l', Forall2 P l l'.
Proof.
  intros H. induction l as [|a l [l' IH]].
  - exists []. constructor.
  - destruct (H a) as [b Hb]. exists (b :: l'). now constructor.
Qed.

(** The decision layer, spelled out. *)
Lemma render_decision (data : list Penguin.t) (k : Z) :
  limitedData data k <> [] ->
  (1 <= k)%Z ->
  exists Ls,
    Forall2 (fun c L => classifyPoint (limitedData data k) k c = Normal L) hexPoints Ls
    /\ snd (render data k) = Normal tt
    /\ decisionLayer (fst (render data k))
       = map (fun cL =>
                mkPath (xScale data (fst (fst cL)), yScale data (snd (fst cL)))
                       (Some (snd (color (firsts value_eqb (map str Ls)) (str (snd cL))))))
             (combine hexPoints Ls).
Proof.
  intros Hld Hk.
  destruct (Forall2_choose
              (fun c L => classifyPoint (limitedData data k) k c = Normal L) hexPoints
              (fun c => classifyPoint_Normal _ k c Hld Hk)) as [Ls HLs].
  exists Ls. split; [exact HLs|].
  assert (Hv : Forall2 (fun (n : Point.t) (L : string) =>
                          fmap str (classifyPoint (limitedData data k) k n)
                          = Normal (str L)) hexPoints Ls).
  { eapply Forall2_impl; [|exact HLs]. cbv beta. intros c L HL. now rewrite HL. }
  assert (Hm : Forall (fun b => maxSpecies Point.species (Hexbin.points b)
                                = Normal undefined) (bins data k)).
  { eapply Forall_impl; [|apply bins_nonempty].
    intros b Hb. now apply maxSpecies_points. }
  unfold render. cbv zeta. unfold firsts.
  revert HLs Hv Hm. generalize hexPoints, (bins data k). intros centers bs _ Hv Hm.
  match goal with
  | |- context [@attrFill ?A ?t ?v [] centers] =>
      rewrite (attrFill_labelled A string t v str centers Ls Hv [])
  end.
  match goal with
  | |- context [@attrFill ?A ?t ?v ?dom bs] =>
      destruct (attrFill_constant A t v undefined bs Hm dom) as [Hr2 _];
      destruct (@attrFill A t v dom bs) as [[density domain2] r2]
  end.
  cbn [fst snd] in Hr2. subst r2. cbn [fst snd decisionLayer].
  split; reflexivity.
Qed.

(** C7: the decision layer has one hexagon per centre of the grid, in the
    order of [hexbinGenerator.centers()].  Each centre is classified
    against the whole truncated data: the neighbours that vote for it are
    a rearrangement of all of [limitedData], and its label is a species of
    [limitedData] that no other species outnumbers there, whatever the
    bins hold.  The hexagon at the centre is filled with the colour of
    that label: the colour the ordinal scale gives it once the labels of
    all the centres, in order of first use, are its domain. *)
Theorem decision_layer_classifies_every_centre
        (data : list Penguin.t) (prior : Svg) (k : Z) :
  data <> [] ->
  (1 <= k)%Z ->
  exists svg Ls,
    drawVisualization (mkApp data (Some prior)) k = (mkApp data (Some svg), Normal tt)
    /\ Forall2 (fun c L =>
                  classifyPoint (limitedData data k) k c = Normal L
                  /\ Permutation (labels (nearestNeighbors (limitedData data k) k c))
                                 (map Penguin.species (limitedData data k))
                  /\ In L (map Penguin.species (limitedData data k))
                  /\ forall s,
                      occurrences String.eqb s (map Penguin.species (limitedData data k))
                      <= occurrences String.eqb L (map Penguin.species (limitedData data k)))
               hexPoints Ls
    /\ decisionLayer svg
       = map (fun cL =>
                mkPath (xScale data (fst (fst cL)), yScale data (snd (fst cL)))
                       (Some (snd (color (firsts value_eqb (map str Ls)) (str (snd cL))))))
             (combine hexPoints Ls).
Proof.
  intros Hd Hk.
  destruct (render_decision data k (limitedData_nonempty data k Hd Hk) Hk)
    as (Ls & HLs & Hr & Hdec).
  exists (fst (render data k)), Ls. split; [|split].
  - destruct data as [|d ds]; [congruence|].
    rewrite drawVisualization_mounted. now rewrite Hr.
  - eapply Forall2_impl; [|exact HLs]. cbv beta. intros c L HL.
    pose proof (neighbours_truncated_aux data k c Hk) as Hperm.
    split; [exact HL|]. split; [exact Hperm|].
    apply vote_spec in HL. destruct HL as (Hin & Hmax & _). split.
    + eapply Permutation_in; [exact Hperm | exact Hin].
    + intros s. specialize (Hmax s).
      now rewrite !(occurrences_Permutation String.eqb _ Hperm) in Hmax.
  - exact Hdec.
Qed.

Lemma decision_layer_classifies_every_centre_witness :
  [adelie1; adelie2; gentoo1] <> []
  /\ (1 <= 2)%Z
  /\ exists svg Ls,
      drawVisualization (mkApp [adelie1; adelie2; gentoo1] (Some blank)) 2
      = (mkApp [adelie1; adelie2; gentoo1] (Some svg), Normal tt)
      /\ Forall2 (fun c L =>
                    classifyPoint (limitedData [adelie1; adelie2; gentoo1] 2) 2 c
                    = Normal L
                    /\ Permutation
                         (labels (nearestNeighbors
                                    (limitedData [adelie1; adelie2; gentoo1] 2) 2 c))
                         (map Penguin.species (limitedData [adelie1; adelie2; gentoo1] 2))
                    /\ In L (map Penguin.species
                                 (limitedData [adelie1; adelie2; gentoo1] 2))
                    /\ forall s,
                        occurrences String.eqb s
                                    (map Penguin.species
                                         (limitedData [adelie1; adelie2; gentoo1] 2))
                        <= occurrences String.eqb L
                                       (map Penguin.species
                                            (limitedData [adelie1; adelie2; gentoo1] 2)))
                 hexPoints Ls
      /\ decisionLayer svg
         = map (fun cL =>
                  mkPath (xScale [adelie1; adelie2; gentoo1] (fst (fst cL)),
                          yScale [adelie1; adelie2; gentoo1] (snd (fst cL)))
                         (Some (snd (color (firsts value_eqb (map str Ls))
                                           (str (snd cL))))))
               (combine hexPoints Ls).
Proof.
  split; [discriminate|]. split; [lia|].
  apply (decision_layer_classifies_every_centre [adelie1; adelie2; gentoo1] blank 2);
    [discriminate | lia].
Defined.

(** * The drawing does not depend on the engine's sort *)

Lemma consistentb_spec {A : Type} (comparefn : A -> A -> float) (l : list A) :
  consistentb comparefn l = true <-> consistentOn comparefn l.
Proof.
  unfold consistentb, consistentOn, notAfter. split.
  - intros H. rewrite forallb_forall in H. split.
    + intros a b Ha Hb. specialize (H a Ha). rewrite forallb_forall in H.
      specialize (H b Hb). apply andb_true_iff in H. destruct H as [H _].
      apply orb_true_iff in H. rewrite !negb_true_iff in H. exact H.
    + intros a b c Ha Hb Hc Hab Hbc. specialize (H a Ha).
      rewrite forallb_forall in H. specialize (H b Hb).
      apply andb_true_iff in H. destruct H as [_ H].
      rewrite forallb_forall in H. specialize (H c Hc).
      rewrite Hab, Hbc in H. cbn [negb andb implb] in H.
      now apply negb_true_iff in H.
  - intros [Htot Htrans]. apply forallb_forall. intros a Ha.
    apply forallb_forall. intros b Hb. apply andb_true_iff. split.
    + apply orb_true_iff. rewrite !negb_true_iff. now apply Htot.
    + apply forallb_forall. intros c Hc.
      destruct (0 <? comparefn a b)%float eqn:Eab; [reflexivity|].
      destruct (0 <? comparefn b c)%float eqn:Ebc; [reflexivity|].
      cbn [negb andb implb]. apply negb_true_iff.
      now apply (Htrans a b c).
Qed.

Lemma comparableb_spec {A : Type} (comparefn : A -> A -> float) (l : list A) :
  comparableb comparefn l = true <-> comparable comparefn l.
Proof.
  unfold comparableb, comparable.
  rewrite andb_true_iff, consistentb_spec. apply and_iff_compat_l.
  rewrite forallb_forall. split.
  - intros H a b Ha Hb. specialize (H a Ha). rewrite forallb_forall in H.
    now apply Bool.eqb_prop, H.
  - intros H a Ha. apply forallb_forall. intros b Hb.
    rewrite (H a b Ha Hb). apply Bool.eqb_reflx.
Qed.

(** The model's sort is a conforming one, and so is [otherSort]. *)
Lemma JS_sort_conforming : conformingSort (@JS.sort Neighbor.t).
Proof.
  intros comparefn arr. split; [apply sort_Permutation|].
  intros [Hc _]. split; [now apply sort_StronglySorted|].
  intros x Hx. apply (sort_stable Neighbor.t comparefn arr x arr Hc Hx).
  intros z Hz. exact Hz.
Qed.

Lemma otherSort_conforming : conformingSort otherSort.
Proof.
  intros comparefn arr. unfold otherSort. split.
  - destruct (comparableb comparefn arr).
    + apply sort_Permutation.
    + apply Permutation_sym, Permutation_rev.
  - intros Hc. rewrite (proj2 (comparableb_spec comparefn arr) Hc).
    exact (proj2 (JS_sort_conforming comparefn arr) Hc).
Qed.

(** On a consistent comparator every conforming sort returns what the
    model's sort returns. *)
Lemma conformingSort_unique
      (srt : (Neighbor.t -> Neighbor.t -> float) -> list Neighbor.t -> list Neighbor.t)
      (comparefn : Neighbor.t -> Neighbor.t -> float) (arr : list Neighbor.t) :
  conformingSort srt ->
  comparable comparefn arr ->
  srt comparefn arr = JS.sort comparefn arr.
Proof.
  intros Hsrt Hc.
  destruct (Hsrt comparefn arr) as [Hp1 H1]. destruct (H1 Hc) as [Hs1 Hf1].
  destruct (JS_sort_conforming comparefn arr) as [Hp2 H2].
  destruct (H2 Hc) as [Hs2 Hf2].
  apply (stable_sorted_unique Neighbor.t comparefn).
  - eapply perm_trans; [exact Hp1 | apply Permutation_sym, Hp2].
  - apply (consistentOn_Permutation Neighbor.t comparefn arr);
      [apply Permutation_sym, Hp1 | exact (proj1 Hc)].
  - exact Hs1.
  - exact Hs2.
  - intros x Hx.
    assert (Hin : In x arr) by (eapply Permutation_in; [exact Hp1 | exact Hx]).
    now rewrite (Hf1 x Hin), (Hf2 x Hin).
Qed.

Lemma classifyPointWith_classifyPoint
      (srt : (Neighbor.t -> Neighbor.t -> float) -> list Neighbor.t -> list Neighbor.t)
      (ld : list Penguin.t) (k : Z) (q : Point.t) :
  conformingSort srt ->
  comparable byDistance (distances ld q) ->
  classifyPointWith srt ld k q = classifyPoint ld k q.
Proof.
  intros Hsrt Hc. unfold classifyPointWith, classifyPoint, nearestNeighbors, sortedDistances.
  now rewrite (conformingSort_unique srt byDistance (distances ld q) Hsrt Hc).
Qed.

Lemma renderWith_render
      (srt : (Neighbor.t -> Neighbor.t -> float) -> list Neighbor.t -> list Neighbor.t)
      (data : list Penguin.t) (k : Z) :
  conformingSort srt ->
  distancesConsistent data k ->
  renderWith srt data k = render data k.
Proof.
  intros Hsrt Hc. unfold renderWith, render. cbv zeta.
  unfold distancesConsistent in Hc. revert Hc.
  generalize hexPoints, (bins data k). intros centers bs Hc.
  match goal with
  | |- context [@attrFill ?A ?t ?v [] centers] =>
      rewrite (attrFill_ext_in A t v
                 (fun d => fmap str (classifyPoint (limitedData data k) k d)) centers)
  end.
  - reflexivity.
  - intros c Hin. cbv beta.
    now rewrite (classifyPointWith_classifyPoint srt _ k c Hsrt (Hc c Hin)).
Qed.

Lemma drawVisualizationWith_drawVisualization
      (srt : (Neighbor.t -> Neighbor.t -> float) -> list Neighbor.t -> list Neighbor.t)
      (app : App) (k : Z) :
  conformingSort srt ->
  distancesConsistent (data app) k ->
  drawVisualizationWith srt app k = drawVisualization app k.
Proof.
  intros Hsrt Hc. unfold drawVisualizationWith, drawVisualization.
  destruct (data app) as [|d ds] eqn:Ed; [reflexivity|].
  destruct (svgRef app); [|reflexivity].
  now rewrite (renderWith_render srt (d :: ds) k Hsrt Hc).
Qed.

(** Where a [NaN] distance stands between two unequal ones the
    comparison function is not consistent, and what [classifyPoint]
    returns is the engine's choice: on the model's sort the malformed
    record comes first and "B" wins the tie, on [otherSort] it comes last
    and "C" wins. *)
Lemma classifyPoint_engine_choice :
  comparableb byDistance (distances [broken1; gentoo1; adelie1] query) = false
  /\ classifyPointWith (@JS.sort Neighbor.t) [broken1; gentoo1; adelie1] 3 query
     = Normal "B"%string
  /\ classifyPointWith otherSort [broken1; gentoo1; adelie1] 3 query
     = Normal "C"%string.
Proof. repeat split; vm_compute; reflexivity. Qed.

(** C8: the redraw is a function of the loaded data, [k] and the grid
    alone.  Whatever was drawn before, [drawVisualization] leaves the same
    two layers and ends the same way, and a second call with the data and
    [k] unchanged reproduces the first drawing.  Nor does the drawing
    depend on the engine that runs it: when the distances to every centre
    can be put in order, any sort that conforms to the language gives, on
    any prior drawing, the very drawing of the model's sort (the tally's
    [Map] iterates in insertion order in every engine). *)
Theorem drawVisualization_deterministic
        (srt : (Neighbor.t -> Neighbor.t -> float) -> list Neighbor.t -> list Neighbor.t)
        (data : list Penguin.t) (prior1 prior2 : Svg) (k : Z) :
  conformingSort srt ->
  data <> [] ->
  drawVisualization (mkApp data (Some prior1)) k
  = drawVisualization (mkApp data (Some prior2)) k
  /\ drawVisualization (fst (drawVisualization (mkApp data (Some prior1)) k)) k
     = drawVisualization (mkApp data (Some prior1)) k
  /\ (distancesConsistent data k ->
      drawVisualizationWith srt (mkApp data (Some prior1)) k
      = drawVisualization (mkApp data (Some prior2)) k).
Proof.
  intros Hsrt Hd.
  assert (Hprior : drawVisualization (mkApp data (Some prior1)) k
                   = drawVisualization (mkApp data (Some prior2)) k).
  { destruct data as [|d ds]; [congruence|].
    now rewrite !drawVisualization_mounted. }
  split; [exact Hprior|]. split; [apply drawVisualization_idempotent|].
  intros Hc. rewrite <- Hprior.
  now apply drawVisualizationWith_drawVisualization.
Qed.

Lemma three_rows_distancesConsistent :
  distancesConsistent [adelie1; adelie2; gentoo1] 3.
Proof.
  assert (H : forallb (fun c => comparableb byDistance
                                  (distances (limitedData [adelie1; adelie2; gentoo1] 3) c))
                      hexPoints = true) by (vm_compute; reflexivity).
  rewrite forallb_forall in H. intros c Hin.
  apply comparableb_spec. now apply H.
Qed.

Lemma drawVisualization_deterministic_witness :
  conformingSort otherSort
  /\ [adelie1; adelie2; gentoo1] <> []
  /\ distancesConsistent [adelie1; adelie2; gentoo1] 3
  /\ drawVisualization (mkApp [adelie1; adelie2; gentoo1] (Some blank)) 3
     = drawVisualization
         (mkApp [adelie1; adelie2; gentoo1] (Some (mkSvg [] [] (Some 7%Z)))) 3
  /\ drawVisualization
       (fst (drawVisualization (mkApp [adelie1; adelie2; gentoo1] (Some blank)) 3)) 3
     = drawVisualization (mkApp [adelie1; adelie2; gentoo1] (Some blank)) 3
  /\ (distancesConsistent [adelie1; adelie2; gentoo1] 3 ->
      drawVisualizationWith otherSort (mkApp [adelie1; adelie2; gentoo1] (Some blank)) 3
      = drawVisualization
          (mkApp [adelie1; adelie2; gentoo1] (Some (mkSvg [] [] (Some 7%Z)))) 3).
Proof.
  split; [exact otherSort_conforming|]. split; [discriminate|].
  split; [exact three_rows_distancesConsistent|].
  apply (drawVisualization_deterministic
           otherSort [adelie1; adelie2; gentoo1] blank (mkSvg [] [] (Some 7%Z)) 3).
  - exact otherSort_conforming.
  - discriminate.
Defined.
